(** * Zyphr: a distributed circuit breaker for outbound HTTP calls

    The repository holds two variants of the [Zyphr] class:

    - the stateful variant of [src/zyphr.ts], which keeps a circuit record
      (phase, failure count, success count, last failure time) in Redis and
      runs its own state machine in [fireRequest], [recordSuccess] and
      [recordFailure]  (module [ZyphrTs] below);
    - the gate variant, which leaves failure detection to the opossum
      breaker, broadcasts the breaker's transitions into one Redis key with a
      time-to-live and checks that key before every call
      (module [ZyphrGate] below).

    Redis, the bull queue, axios and the opossum breaker are libraries the
    class is written against.  Redis and the queue are modelled by their
    contract; axios and opossum are parameters of the development.

    A call is a function from the world before it to its outcome and the
    world after it: the Redis store, the queue, the log of axios calls, the
    log of Redis writes, the breaker's state and the clock ([Date.now()], in
    milliseconds).  Counters and instants are integers.  Calls are run one
    after the other; an [await] never interleaves two of them. *)

From Stdlib Require Import ZArith Lia.
From stdpp Require Import gmap strings list.

Local Open Scope Z_scope.

(** ** Requests *)

(** [data?: any] : a request body is absent ([undefined]), [null], or some
    payload. *)
Inductive JsValue :=
  | JsUndefined
  | JsNull
  | JsData (payload : string).

(** [interface JobData { method; url; data?; config? }] *)
Record JobData := mkJobData {
  method : string;
  url : string;
  data : JsValue;
  config : option string
}.

#[global] Instance JsValue_eq_dec : EqDecision JsValue.
Proof. solve_decision. Defined.

#[global] Instance JobData_eq_dec : EqDecision JobData.
Proof. solve_decision. Defined.

(** The three events of the opossum breaker the class listens to. *)
Inductive BreakerEvent := EvOpen | EvHalfOpen | EvClose.

(** How one [fire] went, as the breaker sees it. *)
Inductive Attempt := Rejected | Succeeded | Failed.

(** ** The libraries taken as parameters

    The opossum breaker: its state, whether a [fire] at some instant runs the
    wrapped action, and how its state moves (and which events it emits) once
    the attempt is settled.  axios: given the calls made so far and a request,
    the response or the failure reason, and the time the call took. *)
Record Env := mkEnv {
  BState : Type;
  admits : BState -> Z -> bool;
  settle : BState -> Z -> Attempt -> BState * list BreakerEvent;
  axios : list JobData -> JobData -> (string + string) * Z
}.

(** ** The breaker's timer

    opossum starts a timer with the action it runs, of [options.timeout]
    milliseconds: no timer when the option is 0, and a delay below 1 counts
    as 1 (Node's [setTimeout]).  An action that takes longer than the delay
    loses to the timer: the call is rejected with the time-out error and
    counted as a failure by the breaker, and the action goes on unobserved. *)
Definition timerDelay (timeout : Z) : Z := Z.max 1 timeout.

Definition timesOut (timeout took : Z) : bool :=
  negb (timeout =? 0) && (timerDelay timeout <? took).

(** ** Redis: a string-keyed store whose entries may expire *)

Module Redis.
Section Store.
Context {V : Type}.

(** A stored value and, when the key was set with [EX], the instant (in
    milliseconds) at which Redis deletes it. *)
Record Entry := mkEntry {
  value : V;
  expiresAt : option Z
}.

Definition live (now : Z) (e : Entry) : bool :=
  match expiresAt e with
  | None => true
  | Some t => now <? t
  end.

(** [GET key] at instant [now]: [None] is the [null] reply. *)
Definition get (kv : gmap string Entry) (key : string) (now : Z) : option V :=
  match kv !! key with
  | Some e => if live now e then Some (value e) else None
  | None => None
  end.

(** [SET key v] (no expiry) and [SET key v EX seconds] at instant [now]. *)
Definition set (kv : gmap string Entry) (key : string) (v : V)
    (ex : option Z) (now : Z) : gmap string Entry :=
  <[key := mkEntry v ((fun s => now + 1000 * s) <$> ex)]> kv.

End Store.
Arguments Entry : clear implicits.
End Redis.

(** ** Bull: the queue of requests waiting for replay *)

Module Bull.

Record Job := mkJob {
  id : nat;
  jobData : JobData
}.

(** Modelled from the spec: the durable queue (the bull library is not part
    of the sources) offers [push(item) -> ack], [listPending()] returning a
    snapshot of the waiting items, and [promote(item)], which hands the item
    over to the worker.  [promoted] holds the jobs handed over and not yet
    run. *)
Record Queue := mkQueue {
  waiting : list Job;
  promoted : list Job;
  nextId : nat
}.

Definition empty : Queue := mkQueue [] [] 1%nat.

Definition add (d : JobData) (q : Queue) : Queue :=
  mkQueue (waiting q ++ [mkJob (nextId q) d]) (promoted q) (S (nextId q)).

Definition getWaiting (q : Queue) : list Job := waiting q.

Definition promote (j : Job) (q : Queue) : Queue :=
  mkQueue (filter (fun k => id k ≠ id j) (waiting q))
          (promoted q ++ [j]) (nextId q).

(** The worker picks the oldest job handed to it; the job leaves the queue
    whatever its outcome. *)
Definition take (q : Queue) : option (Job * Queue) :=
  match promoted q with
  | [] => None
  | j :: rest => Some (j, mkQueue (waiting q) rest (nextId q))
  end.

End Bull.

(** Everything still owed a replay: handed to the worker or waiting. *)
Definition pending (q : Bull.Queue) : list Bull.Job :=
  Bull.promoted q ++ Bull.waiting q.

(** The outcome of an axios call, as the breaker is told. *)
Definition attemptOf (r : string + string) : Attempt :=
  match r with inl _ => Succeeded | inr _ => Failed end.

(** [processQueue]: promote every job of the [getWaiting] snapshot. *)
Definition drain (q : Bull.Queue) : Bull.Queue :=
  foldl (fun acc j => Bull.promote j acc) q (Bull.getWaiting q).

(** ** The public surface: [get], [post], [put], [delete] *)

Inductive Call :=
  | Get (u : string) (cfg : option string)
  | Post (u : string) (body : JsValue) (cfg : option string)
  | Put (u : string) (body : JsValue) (cfg : option string)
  | Delete (u : string) (cfg : option string).

(** The four method strings [request] knows. *)
Definition supported (m : string) : Prop :=
  m = "get" ∨ m = "post" ∨ m = "put" ∨ m = "delete".

(** * The stateful variant: [src/zyphr.ts] *)

Module ZyphrTs.

Inductive Phase := CLOSED | OPEN | HALF_OPEN.

#[global] Instance Phase_eq_dec : EqDecision Phase.
Proof. solve_decision. Defined.

(** The JSON record kept under the state key.  [lastFailureTime] is [null]
    until a failure is recorded. *)
Record CircuitState := mkCircuitState {
  state : Phase;
  failureCount : Z;
  successCount : Z;
  lastFailureTime : option Z
}.

Record ZyphrOptions := mkOptions {
  failureThreshold : Z;
  successThreshold : Z;
  resetTimeout : Z;
  scenario : Z;
  stateKey : option string
}.

Inductive Error :=
  | CircuitIsOpen          (* Error('Circuit is open') *)
  | CircuitIsOpenQueued    (* Error('Circuit is open. Request has been queued.') *)
  | InvalidMethod          (* Error('Invalid method') *)
  | BreakerError           (* the opossum breaker is open and rejects the call *)
  | BreakerTimeout         (* the opossum breaker's timer went off first *)
  | AxiosError (reason : string).

Record Zyphr := mkZyphr {
  _options : ZyphrOptions;
  _stateKey : string;
  _scenario : Z
}.

(** [options.stateKey || 'circuit-breaker:zyphr']: the empty string is falsy
    too. *)
Definition new_Zyphr (options : ZyphrOptions) : Zyphr :=
  mkZyphr options
    (match stateKey options with
     | Some k => if decide (k = "") then "circuit-breaker:zyphr" else k
     | None => "circuit-breaker:zyphr"
     end)
    (scenario options).

(** The record [getCircuitState] answers when the key is absent. *)
Definition initialState : CircuitState := mkCircuitState CLOSED 0 0 None.

(** [Date.now() - circuitState.lastFailureTime]: [null] counts as 0. *)
Definition sinceLastFailure (now : Z) (cs : CircuitState) : Z :=
  now - default 0 (lastFailureTime cs).

Section Machine.
Context {E : Env}.

(** [redis] holds the keys the class reads and writes itself.  The bull queue
    keeps its jobs in the same Redis server under keys of its own; they are
    the [queue] field. *)
Record World := mkWorld {
  redis : gmap string (Redis.Entry CircuitState);
  writes : list (string * CircuitState);   (* every [redis.set], oldest first *)
  queue : Bull.Queue;
  calls : list JobData;                    (* every axios call, oldest first *)
  emitted : list BreakerEvent;
  breaker : BState E;
  clock : Z                                (* Date.now() *)
}.

Definition with_queue (q : Bull.Queue) (w : World) : World :=
  mkWorld (redis w) (writes w) q (calls w) (emitted w) (breaker w) (clock w).

Definition with_breaker (b : BState E) (w : World) : World :=
  mkWorld (redis w) (writes w) (queue w) (calls w) (emitted w) b (clock w).

(** Time passing between two calls: the environment moves the clock. *)
Definition at_time (t : Z) (w : World) : World :=
  mkWorld (redis w) (writes w) (queue w) (calls w) (emitted w) (breaker w) t.

Definition getCircuitState (key : string) (w : World) : CircuitState :=
  match Redis.get (redis w) key (clock w) with
  | Some cs => cs
  | None => initialState
  end.

Definition setCircuitState (key : string) (cs : CircuitState) (w : World) : World :=
  mkWorld (Redis.set (redis w) key cs None (clock w)) (writes w ++ [(key, cs)])
          (queue w) (calls w) (emitted w) (breaker w) (clock w).

(** One axios call: logged, answered by the environment, and the clock moves
    by the time it took. *)
Definition send (j : JobData) (w : World) : (string + Error) * World :=
  let '(r, dt) := axios E (calls w) j in
  (match r with inl resp => inl resp | inr reason => inr (AxiosError reason) end,
   mkWorld (redis w) (writes w) (queue w) (calls w ++ [j]) (emitted w)
           (breaker w) (clock w + dt)).

(** [axios.get(url, config)] and [axios.delete(url, config)] carry no body. *)
Definition request (j : JobData) (w : World) : (string + Error) * World :=
  if decide (method j = "get") then
    send (mkJobData "get" (url j) JsUndefined (config j)) w
  else if decide (method j = "post") then
    send (mkJobData "post" (url j) (data j) (config j)) w
  else if decide (method j = "put") then
    send (mkJobData "put" (url j) (data j) (config j)) w
  else if decide (method j = "delete") then
    send (mkJobData "delete" (url j) JsUndefined (config j)) w
  else (inr InvalidMethod, w).

Definition processQueue (w : World) : World :=
  with_queue (drain (queue w)) w.

Definition recordSuccess (z : Zyphr) (cs : CircuitState) (w : World)
    : CircuitState * World :=
  let cs1 := mkCircuitState (state cs) 0 (successCount cs) (lastFailureTime cs) in
  match state cs1 with
  | HALF_OPEN =>
      let cs2 := mkCircuitState HALF_OPEN 0 (successCount cs1 + 1) (lastFailureTime cs1) in
      if successThreshold (_options z) <=? successCount cs2 then
        let cs3 := mkCircuitState CLOSED 0 0 (lastFailureTime cs2) in
        (cs3, setCircuitState (_stateKey z) cs3 (processQueue w))
      else (cs2, setCircuitState (_stateKey z) cs2 w)
  | _ => (cs1, setCircuitState (_stateKey z) cs1 w)
  end.

Definition recordFailure (z : Zyphr) (cs : CircuitState) (w : World)
    : CircuitState * World :=
  let cs1 := mkCircuitState (state cs) (failureCount cs + 1) (successCount cs)
                            (Some (clock w)) in
  let cs2 :=
    if bool_decide (state cs1 = HALF_OPEN)
       || (bool_decide (state cs1 = CLOSED)
           && (failureThreshold (_options z) <? failureCount cs1))
    then mkCircuitState OPEN (failureCount cs1) (successCount cs1) (lastFailureTime cs1)
    else cs1 in
  (cs2, setCircuitState (_stateKey z) cs2 w).

(** The gate at the head of [fireRequest]: either the call is thrown out, or
    it goes on with the (possibly half-opened) record. *)
Definition gate (z : Zyphr) (j : JobData) (cs : CircuitState) (w : World)
    : Error * World + CircuitState * World :=
  match state cs with
  | OPEN =>
      if resetTimeout (_options z) <? sinceLastFailure (clock w) cs then
        let cs' := mkCircuitState HALF_OPEN (failureCount cs) (successCount cs)
                                  (lastFailureTime cs) in
        inr (cs', setCircuitState (_stateKey z) cs' w)
      else if decide (_scenario z = 1) then inl (CircuitIsOpen, w)
      else if decide (_scenario z = 2) then
        inl (CircuitIsOpenQueued, with_queue (Bull.add j (queue w)) w)
      else inr (cs, w)
  | _ => inr (cs, w)
  end.

Definition fireRequest (z : Zyphr) (j : JobData) (w : World)
    : (string + Error) * World :=
  let circuitState := getCircuitState (_stateKey z) w in
  match gate z j circuitState w with
  | inl (e, w1) => (inr e, w1)
  | inr (cs, w1) =>
      match request j w1 with
      | (inl result, w2) => (inl result, snd (recordSuccess z cs w2))
      | (inr error, w2) => (inr error, snd (recordFailure z cs w2))
      end
  end.

(** The listeners registered on the breaker in the constructor. *)
Definition on_event (z : Zyphr) (ev : BreakerEvent) (w : World) : World :=
  let cs := getCircuitState (_stateKey z) w in
  match ev with
  | EvOpen =>
      setCircuitState (_stateKey z)
        (mkCircuitState OPEN (failureCount cs) (successCount cs) (Some (clock w))) w
  | EvHalfOpen =>
      setCircuitState (_stateKey z)
        (mkCircuitState HALF_OPEN (failureCount cs) (successCount cs)
                        (lastFailureTime cs)) w
  | EvClose =>
      processQueue
        (setCircuitState (_stateKey z)
           (mkCircuitState CLOSED 0 0 (lastFailureTime cs)) w)
  end.

Definition emit (z : Zyphr) (w : World) (ev : BreakerEvent) : World :=
  on_event z ev
    (mkWorld (redis w) (writes w) (queue w) (calls w) (emitted w ++ [ev])
             (breaker w) (clock w)).

(** The breaker's timer goes off while [fireRequest] awaits axios (the
    breaker was built with [timeout: this._options.resetTimeout]).  The
    breaker counts a failure at that instant and its listeners run; when axios
    answers, [fireRequest] goes on with the record it read at the start and
    records the outcome.  A call the gate throws out takes no time and never
    loses to the timer. *)
Definition overrun (z : Zyphr) (j : JobData) (w : World) : World :=
  match gate z j (getCircuitState (_stateKey z) w) w with
  | inl (_, w1) => w1
  | inr (cs, w1) =>
      let '(r, w2) := request j w1 in
      let lapse := clock w1 + timerDelay (resetTimeout (_options z)) in
      let '(b, evs) := settle E (breaker w2) lapse Failed in
      let w3 := at_time (clock w2)
                  (foldl (emit z) (at_time lapse (with_breaker b w2)) evs) in
      match r with
      | inl _ => snd (recordSuccess z cs w3)
      | inr _ => snd (recordFailure z cs w3)
      end
  end.

(** [this._breaker.fire(...)]: the breaker either runs [fireRequest] with the
    arguments it was given, or rejects the call itself.  When [fireRequest]
    settles before the breaker's timer, the caller gets its outcome, the
    breaker settles the attempt and the listeners run for the events it
    emits; when the timer goes off first, the caller gets the time-out
    error. *)
Definition fire (z : Zyphr) (j : JobData) (w : World) : (string + Error) * World :=
  if admits E (breaker w) (clock w) then
    let '(r, w1) := fireRequest z j w in
    if timesOut (resetTimeout (_options z)) (clock w1 - clock w) then
      (inr BreakerTimeout, overrun z j w)
    else
      let '(b, evs) := settle E (breaker w1) (clock w1)
                         (match r with inl _ => Succeeded | inr _ => Failed end) in
      (r, foldl (emit z) (with_breaker b w1) evs)
  else
    let '(b, evs) := settle E (breaker w) (clock w) Rejected in
    (inr BreakerError, foldl (emit z) (with_breaker b w) evs).

(** The queue worker of the constructor: [this.request(method, url, data,
    config)] on the job's data; the result goes to the queue, not to a
    caller. *)
Definition worker (z : Zyphr) (w : World) : World :=
  match Bull.take (queue w) with
  | None => w
  | Some (job, q) => snd (request (Bull.jobData job) (with_queue q w))
  end.

Definition get (z : Zyphr) (u : string) (cfg : option string) (w : World) :=
  fire z (mkJobData "get" u JsNull cfg) w.

Definition post (z : Zyphr) (u : string) (body : JsValue) (cfg : option string)
    (w : World) :=
  fire z (mkJobData "post" u body cfg) w.

Definition put (z : Zyphr) (u : string) (body : JsValue) (cfg : option string)
    (w : World) :=
  fire z (mkJobData "put" u body cfg) w.

Definition delete (z : Zyphr) (u : string) (cfg : option string) (w : World) :=
  fire z (mkJobData "delete" u JsNull cfg) w.

Definition invoke (z : Zyphr) (c : Call) (w : World) : (string + Error) * World :=
  match c with
  | Get u cfg => get z u cfg w
  | Post u body cfg => post z u body cfg w
  | Put u body cfg => put z u body cfg w
  | Delete u cfg => delete z u cfg w
  end.

(** What a public call hands to the breaker, and what axios is asked. *)
Definition fired (c : Call) : JobData :=
  match c with
  | Get u cfg => mkJobData "get" u JsNull cfg
  | Post u body cfg => mkJobData "post" u body cfg
  | Put u body cfg => mkJobData "put" u body cfg
  | Delete u cfg => mkJobData "delete" u JsNull cfg
  end.

Definition wire (c : Call) : JobData :=
  match c with
  | Get u cfg => mkJobData "get" u JsUndefined cfg
  | Post u body cfg => mkJobData "post" u body cfg
  | Put u body cfg => mkJobData "put" u body cfg
  | Delete u cfg => mkJobData "delete" u JsUndefined cfg
  end.

(** *** Runs used to state the properties *)

(** The record under the state key, stored as [setCircuitState] stores it
    (no expiry). *)
Definition stored (z : Zyphr) (w : World) (cs : CircuitState) : Prop :=
  redis w !! _stateKey z = Some (Redis.mkEntry cs None).

(** A public call arriving at instant [t]. *)
Definition arrive (z : Zyphr) (w : World) (tc : Z * Call) : World :=
  snd (invoke z (snd tc) (at_time (fst tc) w)).

Definition halfOpened (cs : CircuitState) : CircuitState :=
  mkCircuitState HALF_OPEN (failureCount cs) (successCount cs) (lastFailureTime cs).

(** What the listener of [ev] leaves of the record [cs] when the event is
    emitted at instant [t]. *)
Definition listen (t : Z) (cs : CircuitState) (ev : BreakerEvent) : CircuitState :=
  match ev with
  | EvOpen => mkCircuitState OPEN (failureCount cs) (successCount cs) (Some t)
  | EvHalfOpen => halfOpened cs
  | EvClose => mkCircuitState CLOSED 0 0 (lastFailureTime cs)
  end.

(** What [request] asks of axios for a job with one of the four methods. *)
Definition sent (j : JobData) : JobData :=
  mkJobData (method j) (url j)
    (if decide (method j = "post" ∨ method j = "put") then data j else JsUndefined)
    (config j).

End Machine.
Arguments World : clear implicits.
End ZyphrTs.

(** * The gate variant *)

Module ZyphrGate.

Inductive SCENARIO := RETURN_ERROR | QUEUE_REQUEST.

Record ZyphrOptions := mkOptions {
  resetTimeout : Z;
  scenario : SCENARIO;
  stateKey : option string;
  globalTtl : option Z      (* how long global OPEN state lasts *)
}.

Inductive Error :=
  | GloballyOpen           (* Error("Circuit is globally open") *)
  | GloballyOpenQueued     (* Error("Circuit is globally open. Request has been queued.") *)
  | BreakerError           (* the opossum breaker is open and rejects the call *)
  | BreakerTimeout         (* the opossum breaker's timer went off first *)
  | AxiosError (reason : string)
  | RedisError (reason : string).

Record Zyphr := mkZyphr {
  _stateKey : string;
  _scenario : SCENARIO;
  _ttl : Z;
  _breakerTimeout : Z      (* the [timeout] option [this._breaker] is built with *)
}.

(** [options.stateKey || "zyphr:global:circuit"] and
    [options.globalTtl || 30]: the empty string and 0 are falsy too. *)
Definition new_Zyphr (options : ZyphrOptions) : Zyphr :=
  mkZyphr
    (match stateKey options with
     | Some k => if decide (k = "") then "zyphr:global:circuit" else k
     | None => "zyphr:global:circuit"
     end)
    (scenario options)
    (match globalTtl options with
     | Some t => if decide (t = 0) then 30 else t
     | None => 30
     end)
    (resetTimeout options).

(** The value each breaker event broadcasts. *)
Definition phaseName (ev : BreakerEvent) : string :=
  match ev with
  | EvOpen => "OPEN"
  | EvHalfOpen => "HALF_OPEN"
  | EvClose => "CLOSED"
  end.

(** [SET key value EX seconds] as issued by the class. *)
Record SetCmd := mkSet {
  setKey : string;
  setValue : string;
  setEx : Z
}.

Definition broadcast (z : Zyphr) (ev : BreakerEvent) : SetCmd :=
  mkSet (_stateKey z) (phaseName ev) (_ttl z).

Section Gate.
Context {E : Env}.

(** [redisFault] is the reason commands are rejected with while the store
    cannot be reached.  [redis] holds the keys the class reads and writes
    itself; the bull queue keeps its jobs in the same Redis server under keys
    of its own, which are the [queue] field. *)
Record World := mkWorld {
  redisFault : option string;
  redis : gmap string (Redis.Entry string);
  issued : list SetCmd;                    (* every [redis.set], oldest first *)
  queue : Bull.Queue;
  calls : list JobData;                    (* every axios call, oldest first *)
  emitted : list BreakerEvent;
  breaker : BState E;
  clock : Z                                (* the instant, in milliseconds *)
}.

Definition with_queue (q : Bull.Queue) (w : World) : World :=
  mkWorld (redisFault w) (redis w) (issued w) q (calls w) (emitted w)
          (breaker w) (clock w).

Definition with_breaker (b : BState E) (w : World) : World :=
  mkWorld (redisFault w) (redis w) (issued w) (queue w) (calls w) (emitted w)
          b (clock w).

(** Time passing between two calls: the environment moves the clock. *)
Definition at_time (t : Z) (w : World) : World :=
  mkWorld (redisFault w) (redis w) (issued w) (queue w) (calls w) (emitted w)
          (breaker w) t.

(** [this._redis.get(key)]: the value, [null], or a rejection. *)
Definition redis_get (key : string) (w : World) : option string + Error :=
  match redisFault w with
  | Some reason => inr (RedisError reason)
  | None => inl (Redis.get (redis w) key (clock w))
  end.

(** [this._redis.set(key, value, "EX", ttl)]: the command is issued; it takes
    effect when the store can be reached and the expiry is positive (Redis
    refuses [EX] with a time that is not). *)
Definition redis_set (c : SetCmd) (w : World) : bool * World :=
  match redisFault w with
  | Some _ =>
      (false,
       mkWorld (redisFault w) (redis w) (issued w ++ [c]) (queue w) (calls w)
               (emitted w) (breaker w) (clock w))
  | None =>
      if 0 <? setEx c then
        (true,
         mkWorld (redisFault w)
                 (Redis.set (redis w) (setKey c) (setValue c) (Some (setEx c)) (clock w))
                 (issued w ++ [c]) (queue w) (calls w) (emitted w) (breaker w)
                 (clock w))
      else
        (false,
         mkWorld (redisFault w) (redis w) (issued w ++ [c]) (queue w) (calls w)
                 (emitted w) (breaker w) (clock w))
  end.

Definition isGloballyOpen (z : Zyphr) (w : World) : bool + Error :=
  match redis_get (_stateKey z) w with
  | inl state => inl (bool_decide (state = Some "OPEN"))
  | inr e => inr e
  end.

Definition processQueue (w : World) : World :=
  with_queue (drain (queue w)) w.

(** The listeners registered on the breaker.  The close listener awaits its
    [set] before it drains the queue, so a rejected [set] skips the drain. *)
Definition on_event (z : Zyphr) (ev : BreakerEvent) (w : World) : World :=
  match ev with
  | EvOpen => snd (redis_set (mkSet (_stateKey z) "OPEN" (_ttl z)) w)
  | EvHalfOpen => snd (redis_set (mkSet (_stateKey z) "HALF_OPEN" (_ttl z)) w)
  | EvClose =>
      let '(ok, w1) := redis_set (mkSet (_stateKey z) "CLOSED" (_ttl z)) w in
      if ok then processQueue w1 else w1
  end.

Definition emit (z : Zyphr) (w : World) (ev : BreakerEvent) : World :=
  on_event z ev
    (mkWorld (redisFault w) (redis w) (issued w) (queue w) (calls w)
             (emitted w ++ [ev]) (breaker w) (clock w)).

(** [executor]: [axios({ method, url, data, ...config })]. *)
Definition executor (j : JobData) (w : World) : (string + Error) * World :=
  let '(r, dt) := axios E (calls w) j in
  (match r with inl resp => inl resp | inr reason => inr (AxiosError reason) end,
   mkWorld (redisFault w) (redis w) (issued w) (queue w) (calls w ++ [j])
           (emitted w) (breaker w) (clock w + dt)).

(** [this._breaker.fire(method, url, data, config)]: the breaker either runs
    [executor] or rejects the call itself.  It was built with
    [timeout: options.resetTimeout]: when axios takes longer than that, the
    caller gets the time-out error at the instant the timer goes off, the
    breaker counts a failure, and axios's answer is dropped. *)
Definition fire (z : Zyphr) (j : JobData) (w : World) : (string + Error) * World :=
  if admits E (breaker w) (clock w) then
    let '(r, w1) := executor j w in
    if timesOut (_breakerTimeout z) (clock w1 - clock w) then
      let lapse := clock w + timerDelay (_breakerTimeout z) in
      let '(b, evs) := settle E (breaker w1) lapse Failed in
      (inr BreakerTimeout, foldl (emit z) (at_time lapse (with_breaker b w1)) evs)
    else
      let '(b, evs) := settle E (breaker w1) (clock w1)
                         (match r with inl _ => Succeeded | inr _ => Failed end) in
      (r, foldl (emit z) (with_breaker b w1) evs)
  else
    let '(b, evs) := settle E (breaker w) (clock w) Rejected in
    (inr BreakerError, foldl (emit z) (with_breaker b w) evs).

Definition handleRequest (z : Zyphr) (j : JobData) (w : World)
    : (string + Error) * World :=
  match isGloballyOpen z w with
  | inr e => (inr e, w)
  | inl true =>
      match _scenario z with
      | RETURN_ERROR => (inr GloballyOpen, w)
      | _ => (inr GloballyOpenQueued, with_queue (Bull.add j (queue w)) w)
      end
  | inl false => fire z j w
  end.

(** The queue worker: "always goes through breaker". *)
Definition worker (z : Zyphr) (w : World) : World :=
  match Bull.take (queue w) with
  | None => w
  | Some (job, q) => snd (fire z (Bull.jobData job) (with_queue q w))
  end.

Definition get (z : Zyphr) (u : string) (cfg : option string) (w : World) :=
  handleRequest z (mkJobData "get" u JsUndefined cfg) w.

Definition post (z : Zyphr) (u : string) (body : JsValue) (cfg : option string)
    (w : World) :=
  handleRequest z (mkJobData "post" u body cfg) w.

Definition put (z : Zyphr) (u : string) (body : JsValue) (cfg : option string)
    (w : World) :=
  handleRequest z (mkJobData "put" u body cfg) w.

Definition delete (z : Zyphr) (u : string) (cfg : option string) (w : World) :=
  handleRequest z (mkJobData "delete" u JsUndefined cfg) w.

Definition invoke (z : Zyphr) (c : Call) (w : World) : (string + Error) * World :=
  match c with
  | Get u cfg => get z u cfg w
  | Post u body cfg => post z u body cfg w
  | Put u body cfg => put z u body cfg w
  | Delete u cfg => delete z u cfg w
  end.

(** What a public call hands to [handleRequest]. *)
Definition handled (c : Call) : JobData :=
  match c with
  | Get u cfg => mkJobData "get" u JsUndefined cfg
  | Post u body cfg => mkJobData "post" u body cfg
  | Put u body cfg => mkJobData "put" u body cfg
  | Delete u cfg => mkJobData "delete" u JsUndefined cfg
  end.

End Gate.
Arguments World : clear implicits.
End ZyphrGate.

(** * Sample environments and instances

    Concrete breakers, downstreams and instances on which the properties
    below are exercised. *)

Module Sample.

(** A breaker that lets every call through and never trips. *)
Definition calmAdmits (b : unit) (now : Z) : bool := true.

Definition calmSettle (b : unit) (now : Z) (a : Attempt) : unit * list BreakerEvent :=
  (b, []).

(** A breaker that opens on the first failure, rejects while open, and closes
    on the first success once half-open. *)
Inductive Trip := TClosed | TOpen | THalfOpen.

Definition tripAdmits (b : Trip) (now : Z) : bool :=
  match b with TOpen => false | _ => true end.

Definition tripSettle (b : Trip) (now : Z) (a : Attempt) : Trip * list BreakerEvent :=
  match b, a with
  | TClosed, Failed => (TOpen, [EvOpen])
  | THalfOpen, Failed => (TOpen, [EvOpen])
  | THalfOpen, Succeeded => (TClosed, [EvClose])
  | _, _ => (b, [])
  end.

(** A downstream that fails on the url [/fail] and answers everything else;
    every call takes 5 ms. *)
Definition byUrl (history : list JobData) (j : JobData) : (string + string) * Z :=
  (if decide (url j = "/fail") then inr "ECONNREFUSED" else inl "ok", 5).

(** A downstream that follows a script: the n-th call gets the n-th outcome,
    and succeeds once the script is over; every call takes 1 ms. *)
Definition scripted (script : list bool) (history : list JobData) (j : JobData)
    : (string + string) * Z :=
  (match script !! length history with
   | Some false => inr "ECONNRESET"
   | _ => inl "ok"
   end, 1).

Definition calm : Env := mkEnv unit calmAdmits calmSettle byUrl.

Definition tripping : Env := mkEnv Trip tripAdmits tripSettle byUrl.

Definition calmScript (script : list bool) : Env :=
  mkEnv unit calmAdmits calmSettle (scripted script).

(** A downstream that answers everything, after 250 ms. *)
Definition late (history : list JobData) (j : JobData) : (string + string) * Z :=
  (inl "ok", 250).

Definition sluggish : Env := mkEnv unit calmAdmits calmSettle late.

(** Stateful variant: thresholds 3 and 2, reset timeout 100 ms. *)
Definition tsOptions (sc : Z) : ZyphrTs.ZyphrOptions :=
  ZyphrTs.mkOptions 3 2 100 sc None.

Definition tsWorld (E : Env) (b : BState E) : ZyphrTs.World E :=
  ZyphrTs.mkWorld ∅ [] Bull.empty [] [] b 0.

(** A world whose record is [cs], at instant [t]. *)
Definition tsWorldWith (E : Env) (b : BState E) (sc : Z)
    (cs : ZyphrTs.CircuitState) (t : Z) : ZyphrTs.World E :=
  ZyphrTs.at_time t
    (ZyphrTs.mkWorld
       (Redis.set ∅ (ZyphrTs._stateKey (ZyphrTs.new_Zyphr (tsOptions sc))) cs None 0)
       [] Bull.empty [] [] b 0).

(** Gate variant: default key and time-to-live. *)
Definition gateOptions (sc : ZyphrGate.SCENARIO) : ZyphrGate.ZyphrOptions :=
  ZyphrGate.mkOptions 100 sc None None.

Definition gateWorld (E : Env) (b : BState E) (fault : option string)
    (kv : gmap string (Redis.Entry string)) (q : Bull.Queue) (t : Z)
    : ZyphrGate.World E :=
  ZyphrGate.mkWorld fault kv [] q [] [] b t.

End Sample.

(** * Properties of the queue *)

Lemma drain_fold_promoted (l : list Bull.Job) (q : Bull.Queue) :
  let q' := foldl (fun acc j => Bull.promote j acc) q l in
  Bull.promoted q' = Bull.promoted q ++ l ∧ Bull.nextId q' = Bull.nextId q.
Proof.
  revert q. induction l as [|j l IH]; intros q; simpl.
  - by rewrite app_nil_r.
  - destruct (IH (Bull.promote j q)) as [Hp Hn].
    rewrite Hp, Hn. simpl. by rewrite <- app_assoc.
Qed.

Lemma drain_fold_waiting (l : list Bull.Job) (q : Bull.Queue) (k : Bull.Job) :
  k ∈ Bull.waiting (foldl (fun acc j => Bull.promote j acc) q l) →
  k ∈ Bull.waiting q ∧ ∀ j, j ∈ l → Bull.id k ≠ Bull.id j.
Proof.
  revert q. induction l as [|j l IH]; intros q; simpl.
  - intros Hk. split; [done|]. intros j Hj. by apply elem_of_nil in Hj.
  - intros Hk. apply IH in Hk as [Hk Hl]. simpl in Hk.
    apply list_elem_of_filter in Hk as [Hne Hk].
    split; [done|]. intros j' Hj'.
    apply elem_of_cons in Hj' as [->|Hj']; [done|by apply Hl].
Qed.

(** After a drain nothing waits, and the jobs handed to the worker are the
    earlier ones followed by every waiting job, each once and in order. *)
Lemma drain_spec (q : Bull.Queue) :
  Bull.waiting (drain q) = []
  ∧ Bull.promoted (drain q) = Bull.promoted q ++ Bull.waiting q
  ∧ Bull.nextId (drain q) = Bull.nextId q.
Proof.
  unfold drain, Bull.getWaiting. split; [|apply drain_fold_promoted].
  apply elem_of_nil_inv. intros k Hk.
  apply drain_fold_waiting in Hk as [Hk Hl]. by apply (Hl k).
Qed.

Lemma pending_drain (q : Bull.Queue) : pending (drain q) = pending q.
Proof.
  unfold pending. destruct (drain_spec q) as (Hw & Hp & _).
  by rewrite Hw, Hp, app_nil_r.
Qed.

(** * Properties of the stateful variant *)

Module TsProofs.
Import ZyphrTs.

Section Props.
Context {E : Env}.
Implicit Types (w : World E) (z : Zyphr) (cs : CircuitState) (c : Call).

Lemma getCircuitState_stored z w cs :
  stored z w cs → getCircuitState (_stateKey z) w = cs.
Proof.
  unfold stored, getCircuitState, Redis.get. intros ->. reflexivity.
Qed.

Lemma stored_set z w cs : stored z (setCircuitState (_stateKey z) cs w) cs.
Proof. unfold stored, setCircuitState, Redis.set. simpl. apply lookup_insert_eq. Qed.

Lemma getCircuitState_set z w cs :
  getCircuitState (_stateKey z) (setCircuitState (_stateKey z) cs w) = cs.
Proof. apply getCircuitState_stored, stored_set. Qed.

Lemma stored_at_time z w cs t : stored z w cs → stored z (at_time t w) cs.
Proof. done. Qed.

Lemma stored_with_queue z w cs q : stored z w cs → stored z (with_queue q w) cs.
Proof. done. Qed.

(** What [recordFailure] leaves in the record, as a function of the instant. *)
Lemma recordFailure_fst z cs w :
  fst (recordFailure z cs w) =
    mkCircuitState
      (match state cs with
       | HALF_OPEN => OPEN
       | CLOSED => if failureThreshold (_options z) <? failureCount cs + 1
                   then OPEN else CLOSED
       | OPEN => OPEN
       end)
      (failureCount cs + 1) (successCount cs) (Some (clock w)).
Proof.
  unfold recordFailure. simpl.
  destruct (state cs) eqn:Hs; simpl; try reflexivity.
  destruct (_ <? _); reflexivity.
Qed.

Lemma recordFailure_snd z cs w :
  snd (recordFailure z cs w)
  = setCircuitState (_stateKey z) (fst (recordFailure z cs w)) w.
Proof. reflexivity. Qed.

(** From HALF_OPEN one failure opens the circuit again; [successCount] is
    left as it was. *)
Lemma half_open_failure_reopens z cs w :
  state cs = HALF_OPEN →
  state (fst (recordFailure z cs w)) = OPEN
  ∧ successCount (fst (recordFailure z cs w)) = successCount cs
  ∧ failureCount (fst (recordFailure z cs w)) = failureCount cs + 1
  ∧ stored z (snd (recordFailure z cs w)) (fst (recordFailure z cs w)).
Proof.
  intros Hs. rewrite recordFailure_snd, recordFailure_fst, Hs. simpl.
  repeat split. apply stored_set.
Qed.

(** C5. From HALF_OPEN a recorded success clears [failureCount] and counts
    one more success; below [successThreshold] the record stays HALF_OPEN
    with the new count, and once the count reaches [successThreshold] the
    record becomes CLOSED with both counters at 0 and the queue is drained:
    nothing is left waiting and every waiting job has been handed to the
    worker.  Either way the record is written back under the state key. *)
Theorem half_open_success_closes_at_threshold z cs w :
  state cs = HALF_OPEN →
  let cs' := fst (recordSuccess z cs w) in
  let w' := snd (recordSuccess z cs w) in
  failureCount cs' = 0
  ∧ stored z w' cs'
  ∧ (successCount cs + 1 < successThreshold (_options z) →
       state cs' = HALF_OPEN
       ∧ successCount cs' = successCount cs + 1
       ∧ queue w' = queue w)
  ∧ (successThreshold (_options z) ≤ successCount cs + 1 →
       state cs' = CLOSED
       ∧ successCount cs' = 0
       ∧ queue w' = drain (queue w)
       ∧ Bull.waiting (queue w') = []
       ∧ Bull.promoted (queue w')
         = Bull.promoted (queue w) ++ Bull.waiting (queue w)).
Proof.
  intros Hs. unfold recordSuccess. simpl. rewrite Hs.
  destruct (Z.leb_spec (successThreshold (_options z)) (successCount cs + 1))
    as [Hge|Hlt]; simpl.
  - split; [done|]. split; [apply stored_set|]. split; [lia|]. intros _.
    destruct (drain_spec (queue w)) as (Hw & Hp & _). done.
  - split; [done|]. split; [apply stored_set|]. split; [done|]. lia.
Qed.

Lemma request_fired c w : request (fired c) w = send (wire c) w.
Proof. destruct c; reflexivity. Qed.

Lemma send_calls (j : JobData) w : calls (snd (send j w)) = calls w ++ [j].
Proof. unfold send. by destruct (axios E (calls w) j) as [[?|?] ?]. Qed.

Lemma send_keeps (j : JobData) w :
  redis (snd (send j w)) = redis w
  ∧ writes (snd (send j w)) = writes w
  ∧ queue (snd (send j w)) = queue w
  ∧ breaker (snd (send j w)) = breaker w.
Proof. unfold send. by destruct (axios E (calls w) j) as [[?|?] ?]. Qed.

Lemma send_not_invalid (j : JobData) w : fst (send j w) ≠ inr InvalidMethod.
Proof. unfold send. by destruct (axios E (calls w) j) as [[?|?] ?]. Qed.

Lemma recordSuccess_keeps z cs w :
  calls (snd (recordSuccess z cs w)) = calls w
  ∧ ∃ final, writes (snd (recordSuccess z cs w)) = writes w ++ [(_stateKey z, final)].
Proof.
  unfold recordSuccess. simpl. destruct (state cs); simpl; eauto.
  destruct (_ <=? _); simpl; eauto.
Qed.

Lemma recordSuccess_queue z cs w :
  state cs ≠ HALF_OPEN → queue (snd (recordSuccess z cs w)) = queue w.
Proof. unfold recordSuccess. simpl. by destruct (state cs). Qed.

Lemma recordFailure_keeps z cs w :
  calls (snd (recordFailure z cs w)) = calls w
  ∧ queue (snd (recordFailure z cs w)) = queue w
  ∧ ∃ final, writes (snd (recordFailure z cs w)) = writes w ++ [(_stateKey z, final)].
Proof. unfold recordFailure. simpl. eauto. Qed.

(** A call gated in scenario 1 or 2 changes nothing but the queue. *)
Lemma gated_call z (j : JobData) w cs :
  stored z w cs → state cs = OPEN →
  sinceLastFailure (clock w) cs ≤ resetTimeout (_options z) →
  (_scenario z = 1 → fireRequest z j w = (inr CircuitIsOpen, w))
  ∧ (_scenario z = 2 →
       fireRequest z j w
       = (inr CircuitIsOpenQueued, with_queue (Bull.add j (queue w)) w)).
Proof.
  intros Hst Hs Hwin. unfold fireRequest, gate.
  rewrite (getCircuitState_stored _ _ _ Hst), Hs.
  destruct (Z.ltb_spec (resetTimeout (_options z)) (sinceLastFailure (clock w) cs));
    [lia|].
  split; intros Hsc; rewrite Hsc; reflexivity.
Qed.

(** Once the window has passed, the call half-opens the record and goes to
    axios; its outcome is then recorded. *)
Lemma probe_call z w cs c :
  stored z w cs → state cs = OPEN →
  resetTimeout (_options z) < sinceLastFailure (clock w) cs →
  calls (snd (fireRequest z (fired c) w)) = calls w ++ [wire c]
  ∧ ∃ final,
      writes (snd (fireRequest z (fired c) w))
      = writes w ++ [(_stateKey z, halfOpened cs); (_stateKey z, final)].
Proof.
  intros Hst Hs Hlate. unfold fireRequest, gate.
  rewrite (getCircuitState_stored _ _ _ Hst), Hs.
  destruct (Z.ltb_spec (resetTimeout (_options z)) (sinceLastFailure (clock w) cs));
    [|lia].
  rewrite request_fired. fold (halfOpened cs).
  pose proof (send_calls (wire c) (setCircuitState (_stateKey z) (halfOpened cs) w)) as Hc.
  destruct (send_keeps (wire c) (setCircuitState (_stateKey z) (halfOpened cs) w))
    as (_ & Hw & _).
  destruct (send (wire c) (setCircuitState (_stateKey z) (halfOpened cs) w))
    as [[resp|err] w2]; cbn [fst snd] in *.
  - destruct (recordSuccess_keeps z (halfOpened cs) w2) as [Hc' [final Hw']].
    rewrite Hc', Hc. split; [done|]. exists final.
    rewrite Hw', Hw. simpl. by rewrite <- app_assoc.
  - destruct (recordFailure_keeps z (halfOpened cs) w2) as (Hc' & _ & [final Hw']).
    rewrite Hc', Hc. split; [done|]. exists final.
    rewrite Hw', Hw. simpl. by rewrite <- app_assoc.
Qed.

(** C9. A [Zyphr] constructed with a scenario other than 1 and 2: a call
    made while the record is OPEN and the reset timeout has not passed is not
    thrown out and not queued; it is sent to axios, answered with axios's own
    outcome, and that outcome is recorded, as for a call on a closed
    circuit. *)
Theorem unknown_scenario_falls_through (o : ZyphrOptions) c w :
  scenario o ≠ 1 → scenario o ≠ 2 →
  let z := new_Zyphr o in
  state (getCircuitState (_stateKey z) w) = OPEN →
  sinceLastFailure (clock w) (getCircuitState (_stateKey z) w) ≤ resetTimeout o →
  let r := fireRequest z (fired c) w in
  fst r = fst (send (wire c) w)
  ∧ calls (snd r) = calls w ++ [wire c]
  ∧ queue (snd r) = queue w
  ∧ fst r ≠ inr CircuitIsOpen
  ∧ fst r ≠ inr CircuitIsOpenQueued
  ∧ ∃ final, writes (snd r) = writes w ++ [(_stateKey z, final)].
Proof.
  intros H1 H2 z Hs Hwin r. unfold r, fireRequest, gate. rewrite Hs.
  change (_options z) with o. change (_scenario z) with (scenario o).
  destruct (Z.ltb_spec (resetTimeout o)
              (sinceLastFailure (clock w) (getCircuitState (_stateKey z) w))); [lia|].
  rewrite !decide_False by done. rewrite request_fired.
  pose proof (send_calls (wire c) w) as Hc.
  destruct (send_keeps (wire c) w) as (_ & Hw & Hq & _).
  assert (fst (send (wire c) w) ≠ inr CircuitIsOpen
          ∧ fst (send (wire c) w) ≠ inr CircuitIsOpenQueued) as [Hn1 Hn2].
  { unfold send. by destruct (axios E (calls w) (wire c)) as [[?|?] ?]. }
  destruct (send (wire c) w) as [[resp|err] w2]; cbn [fst snd] in *.
  - destruct (recordSuccess_keeps z (getCircuitState (_stateKey z) w) w2)
      as [Hc' [final Hw']].
    rewrite Hc', Hc, recordSuccess_queue, Hq, Hw', Hw by (rewrite Hs; done).
    repeat split; eauto.
  - destruct (recordFailure_keeps z (getCircuitState (_stateKey z) w) w2)
      as (Hc' & Hq' & [final Hw']).
    rewrite Hc', Hc, Hq', Hq, Hw', Hw. repeat split; eauto.
Qed.

Lemma fireRequest_not_invalid z c w :
  fst (fireRequest z (fired c) w) ≠ inr InvalidMethod.
Proof.
  unfold fireRequest.
  destruct (gate z (fired c) (getCircuitState (_stateKey z) w) w)
    as [[e w1]|[cs w1]] eqn:Hg.
  - unfold gate in Hg. repeat case_match; simplify_eq; done.
  - rewrite request_fired. pose proof (send_not_invalid (wire c) w1) as Hni.
    destruct (send (wire c) w1) as [[resp|err] w2]; simpl in *; congruence.
Qed.

(** C10. Each public method hands one of the four method strings to the
    breaker, which passes it on to [fireRequest] and [request] unchanged: no
    call made through [get], [post], [put] or [delete] fails with the
    'Invalid method' error. *)
Theorem public_calls_never_invalid z c w :
  invoke z c w = fire z (fired c) w
  ∧ supported (method (fired c))
  ∧ fst (invoke z c w) ≠ inr InvalidMethod.
Proof.
  assert (invoke z c w = fire z (fired c) w) as Hinv by (by destruct c).
  split; [done|]. split.
  { unfold supported. destruct c; simpl; tauto. }
  rewrite Hinv. unfold fire.
  destruct (admits E (breaker w) (clock w)).
  - pose proof (fireRequest_not_invalid z c w) as Hni.
    destruct (fireRequest z (fired c) w) as [r w1].
    destruct (timesOut _ _); [done|].
    destruct (settle E (breaker w1) (clock w1) _) as [b evs]. done.
  - destruct (settle E (breaker w) (clock w) Rejected) as [b evs]. done.
Qed.

(** The failure that opens the circuit stamps the record with its instant. *)
Lemma opening_stamps_the_instant z cs w :
  lastFailureTime (fst (recordFailure z cs w)) = Some (clock w).
Proof. by rewrite recordFailure_fst. Qed.

(** Every call that reaches axios ends with one write of the record under
    the state key, stored without expiry. *)
Lemma attempted_call_writes z c w :
  state (getCircuitState (_stateKey z) w) ≠ OPEN →
  calls (snd (fireRequest z (fired c) w)) = calls w ++ [wire c]
  ∧ ∃ final,
      writes (snd (fireRequest z (fired c) w)) = writes w ++ [(_stateKey z, final)]
      ∧ stored z (snd (fireRequest z (fired c) w)) final.
Proof.
  intros Hs. unfold fireRequest, gate.
  destruct (state (getCircuitState (_stateKey z) w)) eqn:Hst; [|done|];
    rewrite request_fired;
    pose proof (send_calls (wire c) w) as Hc;
    destruct (send_keeps (wire c) w) as (_ & Hw & _);
    destruct (send (wire c) w) as [[resp|err] w2]; cbn [fst snd] in *;
    rewrite <- Hc, <- Hw.
  1,3: unfold recordSuccess; simpl; rewrite Hst; simpl.
  3,4: unfold recordFailure; simpl.
  - split; [done|]. eexists. split; [done|]. apply stored_set.
  - destruct (_ <=? _); simpl; (split; [done|]); eexists;
      (split; [done|]); apply stored_set.
  - split; [done|]. eexists. split; [done|]. apply stored_set.
  - split; [done|]. eexists. split; [done|]. apply stored_set.
Qed.

(** A replay in this variant goes straight to [request]: neither the record
    nor the breaker hears of its outcome. *)
Lemma worker_not_recorded z w (job : Bull.Job) (rest : list Bull.Job) :
  Bull.promoted (queue w) = job :: rest →
  redis (worker z w) = redis w
  ∧ writes (worker z w) = writes w
  ∧ breaker (worker z w) = breaker w
  ∧ emitted (worker z w) = emitted w
  ∧ queue (worker z w)
    = Bull.mkQueue (Bull.waiting (queue w)) rest (Bull.nextId (queue w)).
Proof.
  intros Hp. unfold worker, Bull.take. rewrite Hp.
  set (w0 := with_queue _ w). unfold request.
  repeat case_decide; try done;
    match goal with
    | |- context [send ?j w0] =>
        destruct (send_keeps j w0) as (-> & -> & -> & ->);
        unfold send; by destruct (axios E (calls w0) j) as [[?|?] ?]
    end.
Qed.

Lemma close_event_drains z w :
  Bull.waiting (queue (emit z w EvClose)) = []
  ∧ Bull.promoted (queue (emit z w EvClose))
    = Bull.promoted (queue w) ++ Bull.waiting (queue w).
Proof.
  unfold emit, on_event, processQueue. simpl.
  destruct (drain_spec (queue w)) as (Hw & Hp & _). done.
Qed.

End Props.

(** *** The properties on concrete runs *)

(** Five failing public calls in a row under a breaker that never trips,
    threshold 3, scenario 1: the record is CLOSED after the third, OPEN after
    the fourth, and the fifth is thrown out without reaching axios. *)
Lemma five_failing_calls :
  let z := new_Zyphr (Sample.tsOptions 1) in
  let call := (0, Get "/fail" None) in
  let w3 := foldl (arrive z) (Sample.tsWorld Sample.calm tt) [call; call; call] in
  let w4 := arrive z w3 call in
  getCircuitState (_stateKey z) w3 = mkCircuitState CLOSED 3 0 (Some 5)
  ∧ getCircuitState (_stateKey z) w4 = mkCircuitState OPEN 4 0 (Some 5)
  ∧ length (calls w4) = 4%nat
  ∧ invoke z (Get "/fail" None) (at_time 0 w4) = (inr CircuitIsOpen, at_time 0 w4).
Proof. by vm_compute. Qed.

(** C4, on the code.  A record in HALF_OPEN with one success counted, and one
    failure recorded: the record is OPEN, and [successCount] is still 1. *)
Theorem half_open_failure_keeps_successCount :
  let z := new_Zyphr (Sample.tsOptions 1) in
  let cs := mkCircuitState HALF_OPEN 0 1 (Some 0) in
  let w := Sample.tsWorldWith Sample.calm tt 1 cs 250 in
  fst (recordFailure z cs w) = mkCircuitState OPEN 1 1 (Some 250)
  ∧ stored z (snd (recordFailure z cs w)) (mkCircuitState OPEN 1 1 (Some 250)).
Proof. split; [reflexivity | by vm_compute]. Qed.

(** What the count left behind leads to: with [successThreshold] 2, a probe
    succeeds, the next one fails, and after the next timeout a single
    successful probe closes the circuit. *)
Lemma stale_successCount_closes_early :
  let E := Sample.calmScript [true; false; true] in
  let z := new_Zyphr (Sample.tsOptions 1) in
  let w0 := Sample.tsWorldWith E tt 1 (mkCircuitState OPEN 4 0 (Some 0)) 0 in
  let w1 := arrive z w0 (200, Get "/a" None) in
  let w2 := arrive z w1 (210, Get "/a" None) in
  let w3 := arrive z w2 (400, Get "/a" None) in
  getCircuitState (_stateKey z) w1 = mkCircuitState HALF_OPEN 0 1 (Some 0)
  ∧ getCircuitState (_stateKey z) w2 = mkCircuitState OPEN 1 1 (Some 211)
  ∧ getCircuitState (_stateKey z) w3 = mkCircuitState CLOSED 0 0 (Some 211).
Proof. by vm_compute. Qed.

Lemma half_open_success_closes_at_threshold_witness :
  let z := new_Zyphr (Sample.tsOptions 2) in
  let job := mkJobData "post" "/orders" (JsData "{id:1}") None in
  let w := with_queue (Bull.add job Bull.empty) (Sample.tsWorld Sample.calm tt) in
  let first := recordSuccess z (mkCircuitState HALF_OPEN 0 0 (Some 0)) w in
  let second := recordSuccess z (fst first) (snd first) in
  (state (fst first) = HALF_OPEN ∧ successCount (fst first) = 1
   ∧ queue (snd first) = queue w)
  ∧ (state (fst second) = CLOSED ∧ successCount (fst second) = 0
     ∧ failureCount (fst second) = 0
     ∧ Bull.waiting (queue (snd second)) = []
     ∧ Bull.promoted (queue (snd second)) = [Bull.mkJob 1 job]).
Proof.
  intros z job w first second.
  destruct (half_open_success_closes_at_threshold z
              (mkCircuitState HALF_OPEN 0 0 (Some 0)) w eq_refl)
    as (_ & _ & Hbelow & _).
  destruct (half_open_success_closes_at_threshold z (fst first) (snd first) eq_refl)
    as (Hf & _ & _ & Hreach).
  split.
  - apply Hbelow. by vm_compute.
  - destruct Hreach as (H1 & H2 & _ & H4 & H5); [by vm_compute|].
    split; [exact H1|]. split; [exact H2|]. split; [exact Hf|].
    split; [exact H4 | exact H5].
Defined.

(** C6 as stated fails on the code.  With reset timeout 100 and the record
    OPEN since instant 1000, all through the public methods: in scenario 1 a
    call at instant 1100, when the timeout has elapsed in full, is still
    thrown out and the record stays as it was; in scenario 3 a call at
    instant 1000, before any of the timeout has elapsed, reaches axios; and
    under a breaker that opens on its first failure a call thrown out at
    instant 1010 moves [lastFailureTime] to 1010, so that a call at instant
    1105, when more than the timeout has elapsed since the record became
    OPEN, is not sent either. *)
Lemma open_window_counterexample :
  let cs := mkCircuitState OPEN 4 0 (Some 1000) in
  (let z := new_Zyphr (Sample.tsOptions 1) in
   let w := Sample.tsWorldWith Sample.calm tt 1 cs 1100 in
   resetTimeout (_options z) ≤ sinceLastFailure (clock w) cs
   ∧ fst (invoke z (Get "/a" None) w) = inr CircuitIsOpen
   ∧ calls (snd (invoke z (Get "/a" None) w)) = []
   ∧ getCircuitState (_stateKey z) (snd (invoke z (Get "/a" None) w)) = cs)
  ∧ (let z := new_Zyphr (Sample.tsOptions 3) in
     let w := Sample.tsWorldWith Sample.calm tt 3 cs 1000 in
     sinceLastFailure (clock w) cs < resetTimeout (_options z)
     ∧ fst (invoke z (Get "/a" None) w) = inl "ok"
     ∧ calls (snd (invoke z (Get "/a" None) w))
       = [mkJobData "get" "/a" JsUndefined None])
  ∧ (let z := new_Zyphr (Sample.tsOptions 1) in
     let w := Sample.tsWorldWith Sample.tripping Sample.TClosed 1 cs 1010 in
     let w1 := snd (invoke z (Get "/a" None) w) in
     let w2 := at_time 1105 w1 in
     fst (invoke z (Get "/a" None) w) = inr CircuitIsOpen
     ∧ getCircuitState (_stateKey z) w1 = mkCircuitState OPEN 4 0 (Some 1010)
     ∧ resetTimeout (_options z) < sinceLastFailure (clock w2) cs
     ∧ fst (invoke z (Get "/a" None) w2) = inr BreakerError
     ∧ calls (snd (invoke z (Get "/a" None) w2)) = []).
Proof. by vm_compute. Qed.

Lemma unknown_scenario_falls_through_witness :
  let z := new_Zyphr (Sample.tsOptions 3) in
  let cs := mkCircuitState OPEN 4 0 (Some 1000) in
  let w := Sample.tsWorldWith Sample.calm tt 3 cs 1050 in
  let r := fireRequest z (fired (Post "/fail" (JsData "x") None)) w in
  fst r = inr (AxiosError "ECONNREFUSED")
  ∧ calls (snd r) = [mkJobData "post" "/fail" (JsData "x") None]
  ∧ queue (snd r) = Bull.empty.
Proof.
  intros z cs w r.
  destruct (unknown_scenario_falls_through (Sample.tsOptions 3)
              (Post "/fail" (JsData "x") None) w)
    as (Hr & Hc & Hq & _); [done | done | by vm_compute | by vm_compute |].
  split; [exact Hr|]. split; [exact Hc | exact Hq].
Defined.

End TsProofs.

(** * Properties of the gate variant *)

Module GateProofs.
Import ZyphrGate.

Section Props.
Context {E : Env}.
Implicit Types (w : World E) (z : Zyphr) (c : Call) (j : JobData).

Lemma invoke_handled z c w : invoke z c w = handleRequest z (handled c) w.
Proof. by destruct c. Qed.

(** A public call made while [isGloballyOpen] answers true: with
    RETURN_ERROR it fails with the "globally open" error and the world is
    left as it was; with QUEUE_REQUEST one job holding the request is added
    behind the waiting ones and the call fails with the "has been queued"
    error.  In both, axios is not called and the breaker is not consulted. *)
Lemma globally_open_call z c w :
  isGloballyOpen z w = inl true →
  match _scenario z with
  | RETURN_ERROR => invoke z c w = (inr GloballyOpen, w)
  | QUEUE_REQUEST =>
      fst (invoke z c w) = inr GloballyOpenQueued
      ∧ Bull.waiting (queue (snd (invoke z c w)))
        = Bull.waiting (queue w) ++ [Bull.mkJob (Bull.nextId (queue w)) (handled c)]
      ∧ Bull.promoted (queue (snd (invoke z c w))) = Bull.promoted (queue w)
  end
  ∧ calls (snd (invoke z c w)) = calls w
  ∧ breaker (snd (invoke z c w)) = breaker w
  ∧ emitted (snd (invoke z c w)) = emitted w
  ∧ issued (snd (invoke z c w)) = issued w.
Proof.
  intros Hopen. rewrite invoke_handled. unfold handleRequest. rewrite Hopen.
  by destruct (_scenario z).
Qed.

(** C2, as the code has it.  [isGloballyOpen] answers true exactly when the
    store is reached and holds, under the state key, an entry that has not
    expired and whose value is "OPEN"; it answers false when the store is
    reached and the key is absent or expired; and when the read is rejected
    the rejection is passed on, so that the call fails with the store's
    error, nothing is queued and axios is not called. *)
Theorem isGloballyOpen_reads_the_record z w :
  (isGloballyOpen z w = inl true
   ↔ redisFault w = None
     ∧ ∃ e, redis w !! _stateKey z = Some e
            ∧ Redis.live (clock w) e = true
            ∧ Redis.value e = "OPEN")
  ∧ (redisFault w = None →
     (redis w !! _stateKey z = None
      ∨ ∃ e, redis w !! _stateKey z = Some e ∧ Redis.live (clock w) e = false) →
     isGloballyOpen z w = inl false)
  ∧ (∀ reason, redisFault w = Some reason →
       isGloballyOpen z w = inr (RedisError reason)
       ∧ ∀ c, invoke z c w = (inr (RedisError reason), w)).
Proof.
  unfold isGloballyOpen, redis_get, Redis.get. split; [|split].
  - destruct (redisFault w) as [reason|]; [split; [done|by intros [? _]]|].
    destruct (redis w !! _stateKey z) as [e|] eqn:He.
    + destruct (Redis.live (clock w) e) eqn:Hl.
      * split.
        -- intros [= Hv%bool_decide_eq_true]. split; [done|].
           exists e. by simplify_eq.
        -- intros [_ (e' & [= <-] & _ & ->)]. done.
      * split; [done|]. intros [_ (e' & [= <-] & ? & _)]. congruence.
    + split; [done|]. by intros [_ (e' & ? & _)].
  - intros -> [->|(e & -> & ->)]; done.
  - intros reason Hf. split; [by rewrite Hf|].
    intros c. rewrite invoke_handled. unfold handleRequest, isGloballyOpen, redis_get.
    by rewrite Hf.
Qed.

Lemma redis_set_keeps (cmd : SetCmd) w :
  issued (snd (redis_set cmd w)) = issued w ++ [cmd]
  ∧ queue (snd (redis_set cmd w)) = queue w
  ∧ calls (snd (redis_set cmd w)) = calls w
  ∧ emitted (snd (redis_set cmd w)) = emitted w
  ∧ breaker (snd (redis_set cmd w)) = breaker w
  ∧ clock (snd (redis_set cmd w)) = clock w
  ∧ redisFault (snd (redis_set cmd w)) = redisFault w.
Proof.
  unfold redis_set. destruct (redisFault w); [done|].
  by destruct (0 <? setEx cmd).
Qed.

Lemma redis_set_accepted (cmd : SetCmd) w :
  redisFault w = None → 0 < setEx cmd →
  fst (redis_set cmd w) = true
  ∧ redis (snd (redis_set cmd w))
    = Redis.set (redis w) (setKey cmd) (setValue cmd) (Some (setEx cmd)) (clock w).
Proof.
  intros Hf Hex. unfold redis_set. rewrite Hf.
  by destruct (Z.ltb_spec 0 (setEx cmd)); [|lia].
Qed.

(** One event: one [SET] of the event's phase, nothing sent to axios, and what
    is owed a replay stays owed. *)
Lemma emit_keeps z w (ev : BreakerEvent) :
  issued (emit z w ev) = issued w ++ [broadcast z ev]
  ∧ emitted (emit z w ev) = emitted w ++ [ev]
  ∧ calls (emit z w ev) = calls w
  ∧ breaker (emit z w ev) = breaker w
  ∧ clock (emit z w ev) = clock w
  ∧ redisFault (emit z w ev) = redisFault w
  ∧ pending (queue (emit z w ev)) = pending (queue w).
Proof.
  unfold emit, on_event.
  set (w0 := mkWorld _ _ _ _ _ _ _ _).
  destruct ev.
  - destruct (redis_set_keeps (mkSet (_stateKey z) "OPEN" (_ttl z)) w0)
      as (-> & -> & -> & -> & -> & -> & ->). done.
  - destruct (redis_set_keeps (mkSet (_stateKey z) "HALF_OPEN" (_ttl z)) w0)
      as (-> & -> & -> & -> & -> & -> & ->). done.
  - pose proof (redis_set_keeps (mkSet (_stateKey z) "CLOSED" (_ttl z)) w0) as Hk.
    destruct (redis_set _ w0) as [[|] w1]; simpl in *;
      destruct Hk as (-> & -> & -> & -> & -> & -> & ->);
      rewrite ?pending_drain; done.
Qed.

Lemma emit_all_keeps z (evs : list BreakerEvent) w :
  issued (foldl (emit z) w evs) = issued w ++ map (broadcast z) evs
  ∧ emitted (foldl (emit z) w evs) = emitted w ++ evs
  ∧ calls (foldl (emit z) w evs) = calls w
  ∧ breaker (foldl (emit z) w evs) = breaker w
  ∧ pending (queue (foldl (emit z) w evs)) = pending (queue w).
Proof.
  revert w. induction evs as [|ev evs IH]; intros w; simpl.
  - by rewrite !app_nil_r.
  - destruct (IH (emit z w ev)) as (-> & -> & -> & -> & ->).
    destruct (emit_keeps z w ev) as (-> & -> & -> & -> & _ & _ & ->).
    by rewrite <- !app_assoc.
Qed.

Lemma executor_keeps j w :
  calls (snd (executor j w)) = calls w ++ [j]
  ∧ issued (snd (executor j w)) = issued w
  ∧ emitted (snd (executor j w)) = emitted w
  ∧ queue (snd (executor j w)) = queue w
  ∧ breaker (snd (executor j w)) = breaker w
  ∧ clock (snd (executor j w)) = clock w + snd (axios E (calls w) j).
Proof. unfold executor. by destruct (axios E (calls w) j) as [[?|?] ?]. Qed.

(** A call through the breaker: the only writes are the broadcasts of the
    events the breaker emitted meanwhile, and replays owed stay owed. *)
Lemma fire_keeps z j w :
  ∃ evs,
    emitted (snd (fire z j w)) = emitted w ++ evs
    ∧ issued (snd (fire z j w)) = issued w ++ map (broadcast z) evs
    ∧ pending (queue (snd (fire z j w))) = pending (queue w).
Proof.
  unfold fire. destruct (admits E (breaker w) (clock w)).
  - destruct (executor_keeps j w) as (_ & Hi & He & Hq & _).
    destruct (executor j w) as [r w1]. cbn [fst snd] in *.
    destruct (timesOut _ _).
    + destruct (settle E (breaker w1) _ Failed) as [b evs]. cbn [fst snd].
      exists evs.
      destruct (emit_all_keeps z evs
                  (at_time (clock w + timerDelay (_breakerTimeout z))
                     (with_breaker b w1))) as (-> & -> & _ & _ & ->).
      simpl. by rewrite Hi, He, Hq.
    + destruct (settle E (breaker w1) (clock w1) _) as [b evs]. cbn [fst snd].
      exists evs.
      destruct (emit_all_keeps z evs (with_breaker b w1)) as (-> & -> & _ & _ & ->).
      simpl. by rewrite Hi, He, Hq.
  - destruct (settle E (breaker w) (clock w) Rejected) as [b evs]. simpl.
    exists evs.
    by destruct (emit_all_keeps z evs (with_breaker b w)) as (-> & -> & _ & _ & ->).
Qed.

(** A call the breaker lets through is sent to axios once. *)
Lemma fire_sends z j w :
  admits E (breaker w) (clock w) = true →
  calls (snd (fire z j w)) = calls w ++ [j].
Proof.
  intros Ha. unfold fire. rewrite Ha.
  destruct (executor_keeps j w) as (Hc & _).
  destruct (executor j w) as [r w1]. cbn [fst snd] in *.
  destruct (timesOut _ _).
  - destruct (settle E (breaker w1) _ Failed) as [b evs]. cbn [fst snd].
    by destruct (emit_all_keeps z evs
                   (at_time (clock w + timerDelay (_breakerTimeout z))
                      (with_breaker b w1))) as (_ & _ & -> & _ & _).
  - destruct (settle E (breaker w1) (clock w1) _) as [b evs]. cbn [fst snd].
    by destruct (emit_all_keeps z evs (with_breaker b w1)) as (_ & _ & -> & _ & _).
Qed.

(** When axios answers before the breaker's timer, the caller gets axios's
    outcome and the breaker's state moves by [settle] on that outcome; when
    the timer goes off first, the caller gets the time-out error and the
    breaker settles a failure at the instant of the timer. *)
Lemma fire_settles z j w :
  admits E (breaker w) (clock w) = true →
  let r := fst (axios E (calls w) j) in
  let took := snd (axios E (calls w) j) in
  if timesOut (_breakerTimeout z) took
  then fst (fire z j w) = inr BreakerTimeout
       ∧ breaker (snd (fire z j w))
         = fst (settle E (breaker w) (clock w + timerDelay (_breakerTimeout z)) Failed)
  else fst (fire z j w)
       = match r with inl resp => inl resp | inr reason => inr (AxiosError reason) end
       ∧ breaker (snd (fire z j w))
         = fst (settle E (breaker w) (clock w + took) (attemptOf r)).
Proof.
  intros Ha. unfold fire. rewrite Ha. unfold executor.
  destruct (axios E (calls w) j) as [r took]. cbn [fst snd clock].
  replace (clock w + took - clock w) with took by lia.
  destruct (timesOut (_breakerTimeout z) took).
  - cbn [breaker].
    destruct (settle E (breaker w) _ Failed) as [b evs]. cbn [fst snd].
    split; [done|].
    by destruct (emit_all_keeps z evs
         (at_time (clock w + timerDelay (_breakerTimeout z))
            (with_breaker b (mkWorld (redisFault w) (redis w) (issued w) (queue w)
               (calls w ++ [j]) (emitted w) (breaker w) (clock w + took)))))
      as (_ & _ & _ & -> & _).
  - cbn [breaker].
    replace (match match r with inl resp => inl resp | inr reason => inr (AxiosError reason) end
             with inl _ => Succeeded | inr _ => Failed end)
      with (attemptOf r) by (by destruct r).
    destruct (settle E (breaker w) (clock w + took) (attemptOf r)) as [b evs].
    cbn [fst snd]. split; [done|].
    by destruct (emit_all_keeps z evs
         (with_breaker b (mkWorld (redisFault w) (redis w) (issued w) (queue w)
            (calls w ++ [j]) (emitted w) (breaker w) (clock w + took))))
      as (_ & _ & _ & -> & _).
Qed.

(** A call the breaker rejects is not sent to axios. *)
Lemma fire_rejected z j w :
  admits E (breaker w) (clock w) = false →
  fst (fire z j w) = inr BreakerError ∧ calls (snd (fire z j w)) = calls w.
Proof.
  intros Ha. unfold fire. rewrite Ha.
  destruct (settle E (breaker w) (clock w) Rejected) as [b evs]. simpl.
  by destruct (emit_all_keeps z evs (with_breaker b w)) as (_ & _ & -> & _ & _).
Qed.

(** Writes follow transitions: whatever a public call does, the [SET]s it
    issues are the broadcasts of the events emitted during the call. *)
Lemma invoke_writes z c w :
  ∃ evs,
    emitted (snd (invoke z c w)) = emitted w ++ evs
    ∧ issued (snd (invoke z c w)) = issued w ++ map (broadcast z) evs.
Proof.
  rewrite invoke_handled. unfold handleRequest.
  destruct (isGloballyOpen z w) as [[|]|e].
  - exists []. rewrite !app_nil_r. by destruct (_scenario z).
  - destruct (fire_keeps z (handled c) w) as (evs & He & Hi & _). eauto.
  - exists []. by rewrite !app_nil_r.
Qed.

(** Each accepted broadcast stores the phase and restarts the time-to-live. *)
Lemma broadcast_restarts_ttl z w (ev : BreakerEvent) (t : Z) :
  redisFault w = None → 0 < _ttl z →
  Redis.get (redis (emit z w ev)) (_stateKey z) t
  = if t <? clock w + 1000 * _ttl z then Some (phaseName ev) else None.
Proof.
  intros Hf Httl. unfold emit, on_event.
  set (w0 := mkWorld _ _ _ _ _ _ _ _).
  assert (∀ v, Redis.get (redis (snd (redis_set (mkSet (_stateKey z) v (_ttl z)) w0)))
                 (_stateKey z) t
               = if t <? clock w + 1000 * _ttl z then Some v else None) as Hset.
  { intros v. destruct (redis_set_accepted (mkSet (_stateKey z) v (_ttl z)) w0)
      as [_ ->]; [done..|].
    unfold Redis.get, Redis.set. simpl. rewrite lookup_insert_eq. done. }
  destruct ev; simpl; [apply Hset | apply Hset |].
  destruct (redis_set_accepted (mkSet (_stateKey z) "CLOSED" (_ttl z)) w0)
    as [Hok _]; [done..|].
  specialize (Hset "CLOSED").
  destruct (redis_set _ w0) as [ok w1]. simpl in *. by rewrite Hok.
Qed.

(** The close transition: nothing is left waiting, and every job that waited
    has been handed to the worker, once, behind those handed before. *)
Lemma close_drains z w :
  redisFault w = None → 0 < _ttl z →
  Bull.waiting (queue (emit z w EvClose)) = []
  ∧ Bull.promoted (queue (emit z w EvClose))
    = Bull.promoted (queue w) ++ Bull.waiting (queue w).
Proof.
  intros Hf Httl. unfold emit, on_event.
  set (w0 := mkWorld _ _ _ _ _ _ _ _).
  destruct (redis_set_accepted (mkSet (_stateKey z) "CLOSED" (_ttl z)) w0)
    as [Hok _]; [done..|].
  destruct (redis_set_keeps (mkSet (_stateKey z) "CLOSED" (_ttl z)) w0)
    as (_ & Hq & _).
  destruct (redis_set _ w0) as [ok w1]. simpl in *. rewrite Hok. simpl.
  rewrite Hq. destruct (drain_spec (queue w)) as (Hw & Hp & _). done.
Qed.

(** One replay: the job leaves the queue whatever the outcome, and nothing is
    queued in its place. *)
Lemma worker_discards z w (job : Bull.Job) (rest : list Bull.Job) :
  Bull.promoted (queue w) = job :: rest →
  worker z w
  = snd (fire z (Bull.jobData job)
           (with_queue (Bull.mkQueue (Bull.waiting (queue w)) rest
                          (Bull.nextId (queue w))) w))
  ∧ pending (queue (worker z w)) = rest ++ Bull.waiting (queue w).
Proof.
  intros Hp. unfold worker, Bull.take. rewrite Hp. split; [done|].
  by destruct (fire_keeps z (Bull.jobData job)
       (with_queue (Bull.mkQueue (Bull.waiting (queue w)) rest
                      (Bull.nextId (queue w))) w)) as (evs & _ & _ & ->).
Qed.

End Props.
(** *** The properties on concrete runs *)

Lemma isGloballyOpen_reads_the_record_witness :
  let z := new_Zyphr (Sample.gateOptions RETURN_ERROR) in
  let w := Sample.gateWorld Sample.calm tt None
             (Redis.set ∅ "zyphr:global:circuit" "OPEN" (Some 30) 0)
             Bull.empty 500 in
  isGloballyOpen z w = inl true
  ∧ isGloballyOpen z (at_time 30000 w) = inl false
  ∧ isGloballyOpen z (Sample.gateWorld Sample.calm tt None ∅ Bull.empty 500)
    = inl false.
Proof.
  intros z w. split; [|split].
  - apply (proj2 (proj1 (isGloballyOpen_reads_the_record z w))).
    split; [reflexivity|].
    exists (Redis.mkEntry "OPEN" (Some 30000)). by vm_compute.
  - apply (proj1 (proj2 (isGloballyOpen_reads_the_record z (at_time 30000 w))));
      [reflexivity|].
    right. exists (Redis.mkEntry "OPEN" (Some 30000)). by vm_compute.
  - apply (proj1 (proj2 (isGloballyOpen_reads_the_record z
             (Sample.gateWorld Sample.calm tt None ∅ Bull.empty 500))));
      [reflexivity|].
    left. by vm_compute.
Defined.

(** C2 as stated fails on the code.  With the store out of reach the read is
    not answered "not open": the rejection comes back from [isGloballyOpen],
    and a call to a healthy downstream fails with the store's error, without
    reaching axios. *)
Lemma read_failure_is_passed_on :
  let z := new_Zyphr (Sample.gateOptions RETURN_ERROR) in
  let w := Sample.gateWorld Sample.calm tt (Some "ECONNREFUSED") ∅ Bull.empty 0 in
  isGloballyOpen z w = inr (RedisError "ECONNREFUSED")
  ∧ isGloballyOpen z w ≠ inl false
  ∧ fst (invoke z (Get "/ok" None) w) = inr (RedisError "ECONNREFUSED")
  ∧ calls (snd (invoke z (Get "/ok" None) w)) = [].
Proof. by vm_compute. Qed.

(** The record expires with its time-to-live: broadcast OPEN at instant 0
    with the default 30 s, the gate reads open until instant 30000 and not
    open from then on. *)
Lemma gate_lapses_with_ttl :
  let z := new_Zyphr (Sample.gateOptions RETURN_ERROR) in
  let w := emit z (Sample.gateWorld Sample.calm tt None ∅ Bull.empty 0) EvOpen in
  isGloballyOpen z (at_time 29999 w) = inl true
  ∧ isGloballyOpen z (at_time 30000 w) = inl false.
Proof. by vm_compute. Qed.

End GateProofs.

(** * The two variants side by side *)

(** C7, as the code has it.  In the gate variant the [SET]s a public call
    issues are exactly the broadcasts of the events the breaker emitted during
    the call, one per event and none without an event, and an accepted
    broadcast stores the phase under the state key and restarts the
    time-to-live.  In the stateful variant every call that reaches axios ends
    with a write of the record under the state key, stored without expiry. *)
Theorem gate_key_writes (E : Env) :
  (∀ (z : ZyphrGate.Zyphr) (c : Call) (w : ZyphrGate.World E),
     ∃ evs,
       ZyphrGate.emitted (snd (ZyphrGate.invoke z c w)) = ZyphrGate.emitted w ++ evs
       ∧ ZyphrGate.issued (snd (ZyphrGate.invoke z c w))
         = ZyphrGate.issued w ++ map (ZyphrGate.broadcast z) evs)
  ∧ (∀ (z : ZyphrGate.Zyphr) (w : ZyphrGate.World E) (ev : BreakerEvent) (t : Z),
       ZyphrGate.redisFault w = None → 0 < ZyphrGate._ttl z →
       Redis.get (ZyphrGate.redis (ZyphrGate.emit z w ev)) (ZyphrGate._stateKey z) t
       = if t <? ZyphrGate.clock w + 1000 * ZyphrGate._ttl z
         then Some (ZyphrGate.phaseName ev) else None)
  ∧ (∀ (z : ZyphrTs.Zyphr) (c : Call) (w : ZyphrTs.World E),
       ZyphrTs.state (ZyphrTs.getCircuitState (ZyphrTs._stateKey z) w) ≠ ZyphrTs.OPEN →
       ∃ final,
         ZyphrTs.writes (snd (ZyphrTs.fireRequest z (ZyphrTs.fired c) w))
         = ZyphrTs.writes w ++ [(ZyphrTs._stateKey z, final)]
         ∧ ZyphrTs.stored z (snd (ZyphrTs.fireRequest z (ZyphrTs.fired c) w)) final).
Proof.
  split; [|split].
  - intros z c w. apply GateProofs.invoke_writes.
  - intros z w ev t. apply GateProofs.broadcast_restarts_ttl.
  - intros z c w Hs. by destruct (TsProofs.attempted_call_writes z c w Hs).
Qed.

(** C7 as stated fails on the stateful variant.  A successful call on a
    CLOSED circuit: the record is CLOSED before and after and the breaker
    emits nothing, yet the state key is written, and without expiry. *)
Lemma state_key_written_without_transition :
  let z := ZyphrTs.new_Zyphr (Sample.tsOptions 1) in
  let w := Sample.tsWorld Sample.calm tt in
  let w' := snd (ZyphrTs.invoke z (Get "/ok" None) w) in
  ZyphrTs.state (ZyphrTs.getCircuitState (ZyphrTs._stateKey z) w) = ZyphrTs.CLOSED
  ∧ ZyphrTs.state (ZyphrTs.getCircuitState (ZyphrTs._stateKey z) w') = ZyphrTs.CLOSED
  ∧ ZyphrTs.emitted w' = []
  ∧ ZyphrTs.writes w'
    = [(ZyphrTs._stateKey z, ZyphrTs.mkCircuitState ZyphrTs.CLOSED 0 0 None)]
  ∧ ZyphrTs.redis w' !! ZyphrTs._stateKey z
    = Some (Redis.mkEntry (ZyphrTs.mkCircuitState ZyphrTs.CLOSED 0 0 None) None).
Proof. by vm_compute. Qed.

(** C8 as stated fails on the code.  In the stateful variant a replay that
    fails leaves the record and the breaker without a trace of the failure,
    where the same request made through [post] counts one failure.  In the
    gate variant, with two requests waiting: when the store rejects the
    CLOSED broadcast nothing is handed to the worker and nothing is replayed;
    and when the first replay fails and opens the breaker, the second leaves
    the queue without having been sent. *)
Lemma failed_replay_is_not_counted :
  (let z := ZyphrTs.new_Zyphr (Sample.tsOptions 2) in
   let job := mkJobData "post" "/fail" (JsData "{id:1}") None in
   let w := ZyphrTs.with_queue (Bull.mkQueue [] [Bull.mkJob 1 job] 2)
              (Sample.tsWorld Sample.tripping Sample.TClosed) in
   let replayed := ZyphrTs.worker z w in
   let called := snd (ZyphrTs.post z "/fail" (JsData "{id:1}") None w) in
   ZyphrTs.calls replayed = [job]
   ∧ ZyphrTs.failureCount (ZyphrTs.getCircuitState (ZyphrTs._stateKey z) replayed) = 0
   ∧ ZyphrTs.writes replayed = []
   ∧ ZyphrTs.breaker replayed = Sample.TClosed
   ∧ ZyphrTs.calls called = [job]
   ∧ ZyphrTs.failureCount (ZyphrTs.getCircuitState (ZyphrTs._stateKey z) called) = 1
   ∧ ZyphrTs.breaker called = Sample.TOpen)
  ∧ (let z := ZyphrGate.new_Zyphr (Sample.gateOptions ZyphrGate.QUEUE_REQUEST) in
     let first := mkJobData "post" "/fail" (JsData "{id:1}") None in
     let second := mkJobData "post" "/orders" (JsData "{id:2}") None in
     let waiting := Bull.add second (Bull.add first Bull.empty) in
     (let down := Sample.gateWorld Sample.tripping Sample.THalfOpen
                    (Some "ECONNREFUSED") ∅ waiting 0 in
      let closed := ZyphrGate.emit z down EvClose in
      Bull.promoted (ZyphrGate.queue closed) = []
      ∧ ZyphrGate.worker z closed = closed
      ∧ ZyphrGate.calls closed = [])
     ∧ (let up := Sample.gateWorld Sample.tripping Sample.TClosed None ∅ waiting 0 in
        let closed := ZyphrGate.emit z up EvClose in
        let replayed := ZyphrGate.worker z (ZyphrGate.worker z closed) in
        Bull.promoted (ZyphrGate.queue closed)
        = [Bull.mkJob 1 first; Bull.mkJob 2 second]
        ∧ ZyphrGate.calls replayed = [first]
        ∧ pending (ZyphrGate.queue replayed) = []
        ∧ ZyphrGate.breaker replayed = Sample.TOpen)).
Proof. by vm_compute. Qed.

Lemma gate_key_writes_witness :
  let z := ZyphrGate.new_Zyphr (Sample.gateOptions ZyphrGate.RETURN_ERROR) in
  let w := Sample.gateWorld Sample.tripping Sample.TClosed None ∅ Bull.empty 0 in
  Redis.get (ZyphrGate.redis (ZyphrGate.emit z w EvHalfOpen)) "zyphr:global:circuit" 29999
  = Some "HALF_OPEN"
  ∧ ∃ final,
      ZyphrTs.writes
        (snd (ZyphrTs.fireRequest (ZyphrTs.new_Zyphr (Sample.tsOptions 1))
                (ZyphrTs.fired (Get "/ok" None)) (Sample.tsWorld Sample.calm tt)))
      = [("circuit-breaker:zyphr", final)].
Proof.
  intros z w. split.
  - apply (proj1 (proj2 (gate_key_writes Sample.tripping)) z w EvHalfOpen 29999);
      [reflexivity | by vm_compute].
  - destruct (proj2 (proj2 (gate_key_writes Sample.calm))
                (ZyphrTs.new_Zyphr (Sample.tsOptions 1)) (Get "/ok" None)
                (Sample.tsWorld Sample.calm tt)) as (final & Hw & _);
      [by vm_compute|].
    exists final. exact Hw.
Defined.

(** * Further properties of the stateful variant *)

Module TsMore.
Import ZyphrTs.

Section Runs.
Context {E : Env}.

(** One settled call as the record sees it: the record is read back and
    handed to [recordSuccess] or [recordFailure]. *)
Definition recordOutcome (z : Zyphr) (w : World E) (ok : bool) : World E :=
  let cs := getCircuitState (_stateKey z) w in
  if ok then snd (recordSuccess z cs w) else snd (recordFailure z cs w).

(** The number of failures at the end of a run of outcomes that started with
    [c] failures in a row. *)
Fixpoint trailing (c : Z) (l : list bool) : Z :=
  match l with
  | [] => c
  | true :: l => trailing 0 l
  | false :: l => trailing (c + 1) l
  end.

(** No more than [T] failures ever follow one another. *)
Fixpoint withinThreshold (T c : Z) (l : list bool) : bool :=
  match l with
  | [] => true
  | true :: l => withinThreshold T 0 l
  | false :: l => (c + 1 <=? T) && withinThreshold T (c + 1) l
  end.

(** What the class keeps true of the record it stores. *)
Definition wellFormed (z : Zyphr) (cs : CircuitState) : Prop :=
  0 ≤ failureCount cs
  ∧ 0 ≤ successCount cs < successThreshold (_options z)
  ∧ (state cs = CLOSED → failureCount cs ≤ failureThreshold (_options z))
  ∧ (state cs = OPEN → is_Some (lastFailureTime cs)).

Definition recordWellFormed (z : Zyphr) (w : World E) : Prop :=
  ∀ e, redis w !! _stateKey z = Some e → wellFormed z (Redis.value e).

End Runs.

Section Props.
Context {E : Env}.
Implicit Types (w : World E) (z : Zyphr) (cs : CircuitState) (c : Call) (j : JobData).

Lemma request_unsupported j w :
  ¬ supported (method j) → request j w = (inr InvalidMethod, w).
Proof.
  unfold supported, request. intros Hn.
  repeat case_decide; try reflexivity; exfalso; apply Hn; tauto.
Qed.

(** X1. [request] sends a supported method to axios, once, with the url and
    config it was given and with the body only for post and put; any other
    method string fails with 'Invalid method' and nothing is sent. *)
Theorem request_dispatch j w :
  (fst (request j w) = inr InvalidMethod ↔ ¬ supported (method j))
  ∧ (¬ supported (method j) → request j w = (inr InvalidMethod, w))
  ∧ (supported (method j) →
       request j w
       = send (mkJobData (method j) (url j)
                 (if decide (method j = "post" ∨ method j = "put")
                  then data j else JsUndefined)
                 (config j)) w).
Proof.
  assert (supported (method j) →
          request j w
          = send (mkJobData (method j) (url j)
                    (if decide (method j = "post" ∨ method j = "put")
                     then data j else JsUndefined)
                    (config j)) w) as Hsup.
  { unfold supported, request. intros [Hm|[Hm|[Hm|Hm]]]; rewrite Hm; reflexivity. }
  pose proof (request_unsupported j w) as Hno.
  split; [|by split].
  split.
  - intros Hinv Hs. rewrite (Hsup Hs) in Hinv.
    by apply TsProofs.send_not_invalid in Hinv.
  - intros Hn. by rewrite (Hno Hn).
Qed.

(** X2. What [setCircuitState] stores under a key, [getCircuitState] reads
    back at any later instant; a second write replaces the first; other keys
    read as before. *)
Theorem circuit_state_round_trip (key key' : string) cs cs' w (t : Z) :
  getCircuitState key (at_time t (setCircuitState key cs w)) = cs
  ∧ getCircuitState key
      (at_time t (setCircuitState key cs' (setCircuitState key cs w))) = cs'
  ∧ (key' ≠ key →
     getCircuitState key' (at_time t (setCircuitState key cs w))
     = getCircuitState key' (at_time t w)).
Proof.
  unfold getCircuitState, setCircuitState, Redis.get, Redis.set. simpl.
  rewrite !lookup_insert_eq. simpl. split; [done|]. split; [done|].
  intros Hne. by rewrite lookup_insert_ne.
Qed.

Lemma recordSuccess_stored z cs w :
  stored z (snd (recordSuccess z cs w)) (fst (recordSuccess z cs w)).
Proof.
  unfold recordSuccess. simpl. destruct (state cs); simpl;
    try destruct (_ <=? _); simpl; apply TsProofs.stored_set.
Qed.

Lemma recordFailure_stored z cs w :
  stored z (snd (recordFailure z cs w)) (fst (recordFailure z cs w)).
Proof. rewrite TsProofs.recordFailure_snd. apply TsProofs.stored_set. Qed.

(** What [recordSuccess] leaves in the record. *)
Lemma recordSuccess_fst z cs w :
  fst (recordSuccess z cs w) =
    match state cs with
    | HALF_OPEN =>
        if successThreshold (_options z) <=? successCount cs + 1
        then mkCircuitState CLOSED 0 0 (lastFailureTime cs)
        else mkCircuitState HALF_OPEN 0 (successCount cs + 1) (lastFailureTime cs)
    | p => mkCircuitState p 0 (successCount cs) (lastFailureTime cs)
    end.
Proof.
  unfold recordSuccess. simpl. destruct (state cs) eqn:Hs; simpl; try done.
  by destruct (_ <=? _).
Qed.


Lemma recordOutcome_read z w (ok : bool) :
  getCircuitState (_stateKey z) (recordOutcome z w ok)
  = if ok then fst (recordSuccess z (getCircuitState (_stateKey z) w) w)
    else fst (recordFailure z (getCircuitState (_stateKey z) w) w).
Proof.
  unfold recordOutcome. destruct ok; apply TsProofs.getCircuitState_stored.
  - apply recordSuccess_stored.
  - apply recordFailure_stored.
Qed.

Lemma open_stays_open z (l : list bool) w :
  state (getCircuitState (_stateKey z) w) = OPEN →
  state (getCircuitState (_stateKey z) (foldl (recordOutcome z) w l)) = OPEN.
Proof.
  revert w. induction l as [|ok l IH]; intros w Hs; [done|].
  simpl. apply IH. rewrite recordOutcome_read. destruct ok.
  - by rewrite recordSuccess_fst, Hs.
  - by rewrite TsProofs.recordFailure_fst, Hs.
Qed.

(** X4. Failures are counted in a row.  Starting from a CLOSED record whose
    count has not passed the threshold, after any run of successes and
    failures the record is CLOSED exactly when no more than
    [failureThreshold] failures ever followed one another, and then
    [failureCount] is the number of failures since the last success;
    otherwise it is OPEN. *)
Theorem failures_are_counted_in_a_row z (l : list bool) w :
  state (getCircuitState (_stateKey z) w) = CLOSED →
  let c := failureCount (getCircuitState (_stateKey z) w) in
  let final := getCircuitState (_stateKey z) (foldl (recordOutcome z) w l) in
  if withinThreshold (failureThreshold (_options z)) c l
  then state final = CLOSED ∧ failureCount final = trailing c l
  else state final = OPEN.
Proof.
  revert w. induction l as [|ok l IH]; intros w Hs c final; [done|].
  unfold final. simpl foldl.
  pose proof (recordOutcome_read z w ok) as Hread.
  destruct ok; cbn [withinThreshold trailing].
  - rewrite recordSuccess_fst, Hs in Hread.
    specialize (IH (recordOutcome z w true)). rewrite Hread in IH.
    by apply IH.
  - rewrite TsProofs.recordFailure_fst, Hs in Hread. fold c in Hread.
    destruct (Z.leb_spec (c + 1) (failureThreshold (_options z))) as [Hle|Hgt];
      cbn [andb].
    + destruct (Z.ltb_spec (failureThreshold (_options z)) (c + 1)); [lia|].
      specialize (IH (recordOutcome z w false)). rewrite Hread in IH.
      by apply IH.
    + destruct (Z.ltb_spec (failureThreshold (_options z)) (c + 1)); [|lia].
      apply open_stays_open. by rewrite Hread.
Qed.

(** X5. An unsupported method handed to [fireRequest] on a circuit that is
    not OPEN is thrown out by [request] before anything is sent, and the
    throw is recorded like a failure of the downstream: [failureCount] goes
    up by one. *)
Theorem invalid_method_counts_as_failure z j w cs :
  stored z w cs → state cs ≠ OPEN → ¬ supported (method j) →
  fst (fireRequest z j w) = inr InvalidMethod
  ∧ calls (snd (fireRequest z j w)) = calls w
  ∧ failureCount (getCircuitState (_stateKey z) (snd (fireRequest z j w)))
    = failureCount cs + 1.
Proof.
  intros Hst Hs Hn. unfold fireRequest, gate.
  rewrite (TsProofs.getCircuitState_stored _ _ _ Hst).
  pose proof (request_unsupported j w) as Hinv.
  destruct (state cs) eqn:Hp; [|done|]; rewrite (Hinv Hn); cbn [fst snd];
    (split; [done|]; split; [done|]);
    rewrite (TsProofs.getCircuitState_stored _ _ _ (recordFailure_stored z cs w));
    by rewrite TsProofs.recordFailure_fst.
Qed.

(** A success recorded while the record is CLOSED or OPEN clears
    [failureCount] and changes nothing else: the phase stays, no success is
    counted and the queue is not drained.  An OPEN circuit is never closed by
    a success alone. *)
Lemma success_outside_half_open z cs w :
  state cs ≠ HALF_OPEN →
  fst (recordSuccess z cs w)
  = mkCircuitState (state cs) 0 (successCount cs) (lastFailureTime cs)
  ∧ queue (snd (recordSuccess z cs w)) = queue w
  ∧ stored z (snd (recordSuccess z cs w)) (fst (recordSuccess z cs w)).
Proof.
  intros Hs. split; [|split].
  - rewrite recordSuccess_fst. by destruct (state cs).
  - by apply TsProofs.recordSuccess_queue.
  - apply recordSuccess_stored.
Qed.

(** *** What is kept of the stored record *)

Local Ltac wf_solve :=
  unfold wellFormed in *; simpl; repeat split; intros; try lia; try done; eauto.

Lemma wellFormed_initial z :
  0 ≤ failureThreshold (_options z) → 0 < successThreshold (_options z) →
  wellFormed z initialState.
Proof. intros HT HS. wf_solve. Qed.

Lemma wellFormed_read z w :
  0 ≤ failureThreshold (_options z) → 0 < successThreshold (_options z) →
  recordWellFormed z w → wellFormed z (getCircuitState (_stateKey z) w).
Proof.
  intros HT HS Hw. unfold getCircuitState, Redis.get.
  destruct (redis w !! _stateKey z) as [e|] eqn:He;
    [|by apply wellFormed_initial].
  destruct (Redis.live (clock w) e); [by apply Hw|by apply wellFormed_initial].
Qed.

Lemma wellFormed_set z cs w :
  wellFormed z cs → recordWellFormed z (setCircuitState (_stateKey z) cs w).
Proof.
  intros Hcs e. unfold setCircuitState, Redis.set. simpl.
  rewrite lookup_insert_eq. by intros [= <-].
Qed.

Lemma wellFormed_recordSuccess z cs w :
  0 < successThreshold (_options z) → 0 ≤ failureThreshold (_options z) →
  wellFormed z cs → wellFormed z (fst (recordSuccess z cs w)).
Proof.
  intros HS HT (Hf & Hsc & Hcl & Hop). rewrite recordSuccess_fst.
  destruct (state cs) eqn:Hs;
    try destruct (Z.leb_spec (successThreshold (_options z)) (successCount cs + 1));
    wf_solve.
Qed.

Lemma wellFormed_recordFailure z cs w :
  wellFormed z cs → wellFormed z (fst (recordFailure z cs w)).
Proof.
  intros (Hf & Hsc & Hcl & Hop). rewrite TsProofs.recordFailure_fst.
  destruct (state cs) eqn:Hs;
    try destruct (Z.ltb_spec (failureThreshold (_options z)) (failureCount cs + 1));
    wf_solve.
Qed.

Lemma wellFormed_same_redis z w w' :
  redis w' = redis w → recordWellFormed z w → recordWellFormed z w'.
Proof. unfold recordWellFormed. by intros ->. Qed.

Lemma request_same_redis j w : redis (snd (request j w)) = redis w.
Proof.
  unfold request. repeat case_decide; try done;
    match goal with
    | |- context [send ?x w] => by destruct (TsProofs.send_keeps x w) as (-> & _)
    end.
Qed.

Lemma recordSuccess_redis z cs w :
  redis (snd (recordSuccess z cs w))
  = Redis.set (redis w) (_stateKey z) (fst (recordSuccess z cs w)) None (clock w).
Proof.
  unfold recordSuccess. simpl. destruct (state cs); simpl; try done.
  by destruct (_ <=? _).
Qed.

Lemma wellFormed_fireRequest z j w :
  0 ≤ failureThreshold (_options z) → 0 < successThreshold (_options z) →
  recordWellFormed z w → recordWellFormed z (snd (fireRequest z j w)).
Proof.
  intros HT HS Hw. pose proof (wellFormed_read z w HT HS Hw) as Hcs.
  unfold fireRequest.
  destruct (gate z j (getCircuitState (_stateKey z) w) w)
    as [[e w1]|[cs w1]] eqn:Hg.
  - unfold gate in Hg. repeat case_match; simplify_eq; done.
  - assert (wellFormed z cs) as Hcs'.
    { unfold gate in Hg. repeat case_match; simplify_eq; try done.
      destruct Hcs as (? & ? & ? & ?). wf_solve. }
    destruct (request j w1) as [[resp|err] w2]; cbn [fst snd].
    + intros e. rewrite recordSuccess_redis. unfold Redis.set.
      rewrite lookup_insert_eq. intros [= <-]. by apply wellFormed_recordSuccess.
    + rewrite TsProofs.recordFailure_snd. by apply wellFormed_set, wellFormed_recordFailure.
Qed.

Lemma wellFormed_emit z w (ev : BreakerEvent) :
  0 ≤ failureThreshold (_options z) → 0 < successThreshold (_options z) →
  recordWellFormed z w → recordWellFormed z (emit z w ev).
Proof.
  intros HT HS Hw. unfold emit, on_event.
  set (w0 := mkWorld _ _ _ _ _ _ _).
  assert (recordWellFormed z w0) as Hw0 by done.
  pose proof (wellFormed_read z w0 HT HS Hw0) as (Hf & Hsc & Hcl & Hop).
  destruct ev.
  - apply wellFormed_set. wf_solve.
  - apply wellFormed_set. wf_solve.
  - apply (wellFormed_same_redis z
             (setCircuitState (_stateKey z)
                (mkCircuitState CLOSED 0 0
                   (lastFailureTime (getCircuitState (_stateKey z) w0))) w0));
      [done|].
    apply wellFormed_set. wf_solve.
Qed.

Lemma wellFormed_emit_all z (evs : list BreakerEvent) w :
  0 ≤ failureThreshold (_options z) → 0 < successThreshold (_options z) →
  recordWellFormed z w → recordWellFormed z (foldl (emit z) w evs).
Proof.
  intros HT HS. revert w. induction evs as [|ev evs IH]; intros w Hw; [done|].
  simpl. by apply IH, wellFormed_emit.
Qed.

Lemma wellFormed_gate z j w :
  0 ≤ failureThreshold (_options z) → 0 < successThreshold (_options z) →
  recordWellFormed z w →
  match gate z j (getCircuitState (_stateKey z) w) w with
  | inl (_, w1) => recordWellFormed z w1
  | inr (cs, w1) => wellFormed z cs ∧ recordWellFormed z w1
  end.
Proof.
  intros HT HS Hw. pose proof (wellFormed_read z w HT HS Hw) as Hcs.
  destruct (gate z j (getCircuitState (_stateKey z) w) w)
    as [[e w1]|[cs w1]] eqn:Hg.
  - unfold gate in Hg. repeat case_match; simplify_eq; done.
  - unfold gate in Hg. repeat case_match; simplify_eq; try done.
    split; [destruct Hcs as (? & ? & ? & ?); wf_solve|].
    apply wellFormed_set. destruct Hcs as (? & ? & ? & ?). wf_solve.
Qed.

Lemma wellFormed_overrun z j w :
  0 ≤ failureThreshold (_options z) → 0 < successThreshold (_options z) →
  recordWellFormed z w → recordWellFormed z (overrun z j w).
Proof.
  intros HT HS Hw. pose proof (wellFormed_gate z j w HT HS Hw) as Hg.
  unfold overrun.
  destruct (gate z j (getCircuitState (_stateKey z) w) w) as [[e w1]|[cs w1]];
    [done|].
  destruct Hg as [Hcs Hw1].
  pose proof (request_same_redis j w1) as Hreq.
  destruct (request j w1) as [r w2]. cbn [fst snd] in Hreq.
  destruct (settle E (breaker w2) _ Failed) as [b evs].
  destruct r as [resp|err].
  - intros e. rewrite recordSuccess_redis. unfold Redis.set.
    rewrite lookup_insert_eq. intros [= <-]. by apply wellFormed_recordSuccess.
  - rewrite TsProofs.recordFailure_snd.
    by apply wellFormed_set, wellFormed_recordFailure.
Qed.

Lemma wellFormed_fire z j w :
  0 ≤ failureThreshold (_options z) → 0 < successThreshold (_options z) →
  recordWellFormed z w → recordWellFormed z (snd (fire z j w)).
Proof.
  intros HT HS Hw. unfold fire. destruct (admits E (breaker w) (clock w)).
  - pose proof (wellFormed_fireRequest z j w HT HS Hw) as Hw1.
    destruct (fireRequest z j w) as [r w1].
    destruct (timesOut _ _); [by apply wellFormed_overrun|].
    destruct (settle E (breaker w1) (clock w1) _) as [b evs]. cbn [fst snd] in *.
    by apply wellFormed_emit_all.
  - destruct (settle E (breaker w) (clock w) Rejected) as [b evs]. cbn [fst snd].
    by apply wellFormed_emit_all.
Qed.

(** X6. With a failure threshold that is not negative and a positive success
    threshold, every public call, every breaker event and every replay keeps
    the stored record well formed: the counters are not negative,
    [successCount] stays below [successThreshold], a CLOSED record has not
    passed [failureThreshold], and an OPEN record carries the instant of a
    failure. *)
Theorem record_stays_well_formed z w :
  0 ≤ failureThreshold (_options z) → 0 < successThreshold (_options z) →
  recordWellFormed z w →
  (∀ c, recordWellFormed z (snd (invoke z c w)))
  ∧ (∀ ev, recordWellFormed z (emit z w ev))
  ∧ recordWellFormed z (worker z w)
  ∧ wellFormed z (getCircuitState (_stateKey z) w).
Proof.
  intros HT HS Hw. split; [|split; [|split]].
  - intros c. destruct c; by apply wellFormed_fire.
  - intros ev. by apply wellFormed_emit.
  - unfold worker. destruct (Bull.take (queue w)) as [[job q]|]; [|done].
    apply (wellFormed_same_redis z w); [|done].
    by rewrite request_same_redis.
  - by apply wellFormed_read.
Qed.


End Props.

(** *** The properties on concrete runs *)


Lemma failures_are_counted_in_a_row_witness :
  let z := new_Zyphr (Sample.tsOptions 1) in
  let w := Sample.tsWorld Sample.calm tt in
  let read l := getCircuitState (_stateKey z) (foldl (recordOutcome z) w l) in
  (state (read [false; false; false; true; false; false; false]) = CLOSED
   ∧ failureCount (read [false; false; false; true; false; false; false]) = 3)
  ∧ state (read [false; false; false; false; true]) = OPEN.
Proof.
  intros z w read. split.
  - exact (failures_are_counted_in_a_row z
             [false; false; false; true; false; false; false] w eq_refl).
  - exact (failures_are_counted_in_a_row z [false; false; false; false; true] w eq_refl).
Defined.

Lemma invalid_method_counts_as_failure_witness :
  let z := new_Zyphr (Sample.tsOptions 1) in
  let cs := mkCircuitState CLOSED 0 0 None in
  let w := setCircuitState (_stateKey z) cs (Sample.tsWorld Sample.calm tt) in
  let j := mkJobData "GET" "/a" JsNull None in
  fst (fireRequest z j w) = inr InvalidMethod
  ∧ calls (snd (fireRequest z j w)) = []
  ∧ failureCount (getCircuitState (_stateKey z) (snd (fireRequest z j w))) = 1.
Proof.
  intros z cs w j.
  apply (invalid_method_counts_as_failure z j w cs).
  - apply TsProofs.stored_set.
  - discriminate.
  - unfold supported. simpl. intros [H|[H|[H|H]]]; discriminate H.
Defined.

Lemma success_outside_half_open_witness :
  let z := new_Zyphr (Sample.tsOptions 3) in
  let cs := mkCircuitState OPEN 4 1 (Some 0) in
  let w := Sample.tsWorld Sample.calm tt in
  fst (recordSuccess z cs w) = mkCircuitState OPEN 0 1 (Some 0)
  ∧ queue (snd (recordSuccess z cs w)) = Bull.empty.
Proof.
  intros z cs w.
  destruct (success_outside_half_open z cs w) as (Hf & Hq & _); [discriminate|].
  split; [exact Hf | exact Hq].
Defined.

Lemma record_stays_well_formed_witness :
  let z := new_Zyphr (Sample.tsOptions 1) in
  let w := Sample.tsWorld Sample.tripping Sample.TClosed in
  recordWellFormed z (snd (invoke z (Get "/fail" None) w))
  ∧ recordWellFormed z (emit z w EvClose).
Proof.
  intros z w.
  destruct (record_stays_well_formed z w) as (Hi & He & _).
  - by vm_compute.
  - by vm_compute.
  - intros e He. by vm_compute in He.
  - split; [apply Hi | apply He].
Defined.


End TsMore.

(** * Further properties of the gate variant *)

Module GateMore.
Import ZyphrGate.

Section Runs.
Context {E : Env}.

(** A public call arriving at instant [t]. *)
Definition arrive (z : Zyphr) (w : World E) (tc : Z * Call) : World E :=
  snd (invoke z (snd tc) (at_time (fst tc) w)).

End Runs.

Section Props.
Context {E : Env}.
Implicit Types (w : World E) (z : Zyphr) (c : Call) (j : JobData).

(** X12. What a broadcast does to the gate.  Once the store has accepted the
    broadcast of an event, the gate reads open exactly when the event was
    'open' and the time-to-live, counted from the broadcast, has not run out;
    after 'halfOpen' or 'close' it reads not open at once. *)
Theorem broadcast_sets_the_gate z w (ev : BreakerEvent) (t : Z) :
  redisFault w = None → 0 < _ttl z →
  isGloballyOpen z (at_time t (emit z w ev))
  = inl (match ev with
         | EvOpen => t <? clock w + 1000 * _ttl z
         | _ => false
         end).
Proof.
  intros Hf Httl. unfold isGloballyOpen, redis_get.
  destruct (GateProofs.emit_keeps z w ev) as (_ & _ & _ & _ & _ & Hfault & _).
  change (redisFault (at_time t (emit z w ev))) with (redisFault (emit z w ev)).
  rewrite Hfault, Hf.
  change (Redis.get (redis (at_time t (emit z w ev))) (_stateKey z)
            (clock (at_time t (emit z w ev))))
    with (Redis.get (redis (emit z w ev)) (_stateKey z) t).
  rewrite (GateProofs.broadcast_restarts_ttl z w ev t Hf Httl).
  destruct (t <? clock w + 1000 * _ttl z); destruct ev; reflexivity.
Qed.

(** X13. The defaults of the constructor.  An instance built without a state
    key (or with the empty string) and without a time-to-live (or with 0)
    broadcasts under "zyphr:global:circuit" for 30 seconds: after an accepted
    'open' broadcast the gate reads open for the next 30000 ms and not open
    from then on. *)
Theorem defaults_gate_for_thirty_seconds (o : ZyphrOptions) w (t : Z) :
  (stateKey o = None ∨ stateKey o = Some "") →
  (globalTtl o = None ∨ globalTtl o = Some 0) →
  redisFault w = None →
  let z := new_Zyphr o in
  redis (emit z w EvOpen) !! "zyphr:global:circuit"
  = Some (Redis.mkEntry "OPEN" (Some (clock w + 30000)))
  ∧ isGloballyOpen z (at_time t (emit z w EvOpen)) = inl (t <? clock w + 30000).
Proof.
  intros Hk Ht Hf z.
  assert (_stateKey z = "zyphr:global:circuit") as Hkey.
  { unfold z, new_Zyphr. simpl. by destruct Hk as [->| ->]. }
  assert (_ttl z = 30) as Httl.
  { unfold z, new_Zyphr. simpl. by destruct Ht as [->| ->]. }
  clearbody z. split.
  - unfold emit, on_event, redis_set. simpl. rewrite Hf, Httl, Hkey. simpl.
    unfold Redis.set. simpl. rewrite lookup_insert_eq. do 3 f_equal.
  - unfold isGloballyOpen, redis_get, emit, on_event, redis_set. simpl.
    rewrite Hf, Httl. simpl. unfold Redis.get, Redis.set. simpl.
    rewrite lookup_insert_eq. simpl.
    unfold Redis.live. simpl.
    replace (clock w + 1000 * 30) with (clock w + 30000) by lia.
    by destruct (t <? clock w + 30000).
Qed.

(** X14. While the store is out of reach a broadcast is lost: the command is
    issued and the store keeps what it held; and because the 'close' listener
    awaits its write before it drains, the queue is left as it was, with the
    waiting jobs still waiting. *)
Theorem unreachable_store_loses_the_broadcast z w (ev : BreakerEvent)
    (reason : string) :
  redisFault w = Some reason →
  redis (emit z w ev) = redis w
  ∧ queue (emit z w ev) = queue w
  ∧ issued (emit z w ev) = issued w ++ [broadcast z ev].
Proof.
  intros Hf. unfold emit, on_event, redis_set. simpl. rewrite Hf.
  by destruct ev.
Qed.

(** X15. A call that is not gated goes to the breaker.  If the breaker lets
    it through, it is sent to axios once, as [handleRequest] received it; the
    caller gets axios's response or axios's error when axios answers within
    the breaker's timeout ([options.resetTimeout]), and the breaker's
    time-out error when it does not.  If the breaker rejects the call,
    nothing is sent.  Either way nothing is queued. *)
Theorem ungated_call_goes_through_breaker z c w :
  isGloballyOpen z w = inl false →
  (admits E (breaker w) (clock w) = true →
     calls (snd (invoke z c w)) = calls w ++ [handled c]
     ∧ fst (invoke z c w)
       = if timesOut (_breakerTimeout z) (snd (axios E (calls w) (handled c)))
         then inr BreakerTimeout
         else match fst (axios E (calls w) (handled c)) with
              | inl resp => inl resp
              | inr reason => inr (AxiosError reason)
              end)
  ∧ (admits E (breaker w) (clock w) = false →
       fst (invoke z c w) = inr BreakerError
       ∧ calls (snd (invoke z c w)) = calls w)
  ∧ pending (queue (snd (invoke z c w))) = pending (queue w).
Proof.
  intros Hgate. rewrite GateProofs.invoke_handled. unfold handleRequest.
  rewrite Hgate. split; [|split].
  - intros Ha. split; [by apply GateProofs.fire_sends|].
    pose proof (GateProofs.fire_settles z (handled c) w Ha) as Hs.
    cbv zeta in Hs.
    destruct (timesOut (_breakerTimeout z) (snd (axios E (calls w) (handled c))));
      by destruct Hs.
  - intros Ha. by apply GateProofs.fire_rejected.
  - by destruct (GateProofs.fire_keeps z (handled c) w) as (evs & _ & _ & ->).
Qed.




(** X18. A replay is not gated.  The worker fires the job on the breaker
    without reading the gate: while the gate reads open and every public call
    is turned away before axios, a job handed to the worker is still sent to
    axios if the breaker lets it through. *)
Theorem replay_is_not_gated z w (job : Bull.Job) (rest : list Bull.Job) :
  isGloballyOpen z w = inl true →
  Bull.promoted (queue w) = job :: rest →
  admits E (breaker w) (clock w) = true →
  calls (worker z w) = calls w ++ [Bull.jobData job]
  ∧ ∀ c, calls (snd (invoke z c w)) = calls w.
Proof.
  intros Hopen Hp Ha. split.
  - destruct (GateProofs.worker_discards z w job rest Hp) as [-> _].
    by apply (GateProofs.fire_sends z (Bull.jobData job)
                (with_queue (Bull.mkQueue (Bull.waiting (queue w)) rest
                               (Bull.nextId (queue w))) w)).
  - intros c. rewrite GateProofs.invoke_handled. unfold handleRequest.
    rewrite Hopen. by destruct (_scenario z).
Qed.

End Props.

(** *** The properties on concrete runs *)

Lemma broadcast_sets_the_gate_witness :
  let z := new_Zyphr (mkOptions 100 RETURN_ERROR (Some "gate:orders") (Some 5)) in
  let w := Sample.gateWorld Sample.tripping Sample.TClosed None ∅ Bull.empty 1000 in
  isGloballyOpen z (at_time 5999 (emit z w EvOpen)) = inl true
  ∧ isGloballyOpen z (at_time 6000 (emit z w EvOpen)) = inl false
  ∧ isGloballyOpen z (at_time 1000 (emit z (emit z w EvOpen) EvHalfOpen)) = inl false.
Proof.
  intros z w. split; [|split].
  - exact (broadcast_sets_the_gate z w EvOpen 5999 eq_refl eq_refl).
  - exact (broadcast_sets_the_gate z w EvOpen 6000 eq_refl eq_refl).
  - exact (broadcast_sets_the_gate z (emit z w EvOpen) EvHalfOpen 1000 eq_refl eq_refl).
Defined.

Lemma defaults_gate_for_thirty_seconds_witness :
  let o := mkOptions 100 QUEUE_REQUEST (Some "") (Some 0) in
  let w := Sample.gateWorld Sample.calm tt None ∅ Bull.empty 0 in
  isGloballyOpen (new_Zyphr o) (at_time 29999 (emit (new_Zyphr o) w EvOpen)) = inl true
  ∧ isGloballyOpen (new_Zyphr o) (at_time 30000 (emit (new_Zyphr o) w EvOpen)) = inl false.
Proof.
  intros o w. split.
  - exact (proj2 (defaults_gate_for_thirty_seconds o w 29999
                    (or_intror eq_refl) (or_intror eq_refl) eq_refl)).
  - exact (proj2 (defaults_gate_for_thirty_seconds o w 30000
                    (or_intror eq_refl) (or_intror eq_refl) eq_refl)).
Defined.

Lemma unreachable_store_loses_the_broadcast_witness :
  let z := new_Zyphr (Sample.gateOptions QUEUE_REQUEST) in
  let a := mkJobData "post" "/orders" (JsData "{id:1}") None in
  let w := Sample.gateWorld Sample.calm tt (Some "ECONNREFUSED") ∅
             (Bull.add a Bull.empty) 0 in
  Bull.waiting (queue (emit z w EvClose)) = [Bull.mkJob 1 a]
  ∧ Bull.promoted (queue (emit z w EvClose)) = []
  ∧ issued (emit z w EvClose) = [mkSet "zyphr:global:circuit" "CLOSED" 30].
Proof.
  intros z a w.
  destruct (unreachable_store_loses_the_broadcast z w EvClose "ECONNREFUSED" eq_refl)
    as (_ & Hq & Hi).
  rewrite Hq, Hi. by vm_compute.
Defined.

Lemma ungated_call_goes_through_breaker_witness :
  let z := new_Zyphr (Sample.gateOptions RETURN_ERROR) in
  let closed := Sample.gateWorld Sample.tripping Sample.TClosed None
                  (Redis.set ∅ "zyphr:global:circuit" "CLOSED" (Some 30) 0)
                  Bull.empty 100 in
  let tripped := Sample.gateWorld Sample.tripping Sample.TOpen None ∅ Bull.empty 100 in
  let slow := Sample.gateWorld Sample.sluggish tt None ∅ Bull.empty 100 in
  fst (invoke z (Get "/fail" None) closed) = inr (AxiosError "ECONNREFUSED")
  ∧ calls (snd (invoke z (Get "/fail" None) closed))
    = [mkJobData "get" "/fail" JsUndefined None]
  ∧ fst (invoke z (Get "/ok" None) tripped) = inr BreakerError
  ∧ calls (snd (invoke z (Get "/ok" None) tripped)) = []
  ∧ fst (invoke z (Get "/ok" None) slow) = inr BreakerTimeout
  ∧ calls (snd (invoke z (Get "/ok" None) slow))
    = [mkJobData "get" "/ok" JsUndefined None].
Proof.
  intros z closed tripped slow.
  destruct (ungated_call_goes_through_breaker z (Get "/fail" None) closed)
    as (Hin & _ & _); [by vm_compute|].
  destruct (ungated_call_goes_through_breaker z (Get "/ok" None) tripped)
    as (_ & Hout & _); [by vm_compute|].
  destruct (ungated_call_goes_through_breaker z (Get "/ok" None) slow)
    as (Hslow & _ & _); [by vm_compute|].
  destruct (Hin eq_refl) as [H2 H1]. destruct (Hout eq_refl) as [H3 H4].
  destruct (Hslow eq_refl) as [H6 H5].
  split; [exact H1|]. split; [exact H2|]. split; [exact H3|]. split; [exact H4|].
  split; [exact H5 | exact H6].
Defined.


Lemma replay_is_not_gated_witness :
  let z := new_Zyphr (Sample.gateOptions QUEUE_REQUEST) in
  let a := mkJobData "post" "/orders" (JsData "{id:1}") None in
  let w := Sample.gateWorld Sample.tripping Sample.TClosed None
             (Redis.set ∅ "zyphr:global:circuit" "OPEN" (Some 30) 0)
             (Bull.mkQueue [] [Bull.mkJob 1 a] 2) 100 in
  calls (worker z w) = [a]
  ∧ calls (snd (invoke z (Post "/orders" (JsData "{id:1}") None) w)) = [].
Proof.
  intros z a w.
  destruct (replay_is_not_gated z w (Bull.mkJob 1 a) []) as [Hw Hc];
    [by vm_compute | reflexivity | reflexivity |].
  split; [exact Hw | apply Hc].
Defined.

End GateMore.

(** * Listeners and replays of the stateful variant *)

Module TsReplay.
Import ZyphrTs.

Section Props.
Context {E : Env}.
Implicit Types (w : World E) (z : Zyphr) (cs : CircuitState) (c : Call) (j : JobData).



End Props.



End TsReplay.

(** * The stateful variant behind its breaker

    [fireRequest] is private: a call comes in through [get], [post], [put] or
    [delete], that is through [this._breaker.fire].  The breaker may reject
    the call before [fireRequest] runs; an error thrown by [fireRequest],
    the "circuit is open" errors included, is a failure for the breaker; and
    the listeners of the breaker's events write into the record
    [fireRequest] keeps. *)

Module TsPublic.
Import ZyphrTs.

Section Props.
Context {E : Env}.
Implicit Types (w : World E) (z : Zyphr) (cs : CircuitState) (c : Call) (j : JobData).

(** An action that takes no time never loses to the breaker's timer. *)
Lemma timesOut_instant (T : Z) : timesOut T 0 = false.
Proof.
  unfold timesOut, timerDelay. destruct (T =? 0); [done|]. simpl.
  apply Z.ltb_ge. lia.
Qed.

Lemma invoke_fire z c w : invoke z c w = fire z (fired c) w.
Proof. by destruct c. Qed.

(** One event: the listener rewrites the record as [listen] says; nothing is
    sent to axios, and what is owed a replay stays owed. *)
Lemma emit_reads z w (ev : BreakerEvent) :
  getCircuitState (_stateKey z) (emit z w ev)
  = listen (clock w) (getCircuitState (_stateKey z) w) ev
  ∧ calls (emit z w ev) = calls w
  ∧ clock (emit z w ev) = clock w
  ∧ breaker (emit z w ev) = breaker w
  ∧ pending (queue (emit z w ev)) = pending (queue w)
  ∧ ∃ ws, writes (emit z w ev) = writes w ++ ws.
Proof.
  unfold emit, on_event, listen, halfOpened.
  set (w0 := mkWorld _ _ _ _ _ _ _).
  change (getCircuitState (_stateKey z) w0) with (getCircuitState (_stateKey z) w).
  change (clock w0) with (clock w).
  destruct ev.
  - rewrite TsProofs.getCircuitState_set. repeat split; try done. by eexists.
  - rewrite TsProofs.getCircuitState_set. repeat split; try done. by eexists.
  - unfold processQueue. split.
    { apply TsProofs.getCircuitState_stored, TsProofs.stored_with_queue,
        TsProofs.stored_set. }
    simpl. rewrite pending_drain. repeat split; try done. by eexists.
Qed.

Lemma emit_all_reads z (evs : list BreakerEvent) w :
  getCircuitState (_stateKey z) (foldl (emit z) w evs)
  = foldl (listen (clock w)) (getCircuitState (_stateKey z) w) evs
  ∧ calls (foldl (emit z) w evs) = calls w
  ∧ clock (foldl (emit z) w evs) = clock w
  ∧ breaker (foldl (emit z) w evs) = breaker w
  ∧ pending (queue (foldl (emit z) w evs)) = pending (queue w)
  ∧ ∃ ws, writes (foldl (emit z) w evs) = writes w ++ ws.
Proof.
  revert w. induction evs as [|ev evs IH]; intros w; simpl.
  - repeat split. exists []. by rewrite app_nil_r.
  - destruct (IH (emit z w ev)) as (-> & -> & -> & -> & -> & [ws2 ->]).
    destruct (emit_reads z w ev) as (-> & -> & -> & -> & -> & [ws1 ->]).
    repeat split. exists (ws1 ++ ws2). by rewrite app_assoc.
Qed.

(** A call the breaker rejects: [fireRequest] does not run. *)
Lemma refused_public_call z c w :
  admits E (breaker w) (clock w) = false →
  let r := invoke z c w in
  let settled := settle E (breaker w) (clock w) Rejected in
  fst r = inr BreakerError
  ∧ calls (snd r) = calls w
  ∧ pending (queue (snd r)) = pending (queue w)
  ∧ breaker (snd r) = fst settled
  ∧ getCircuitState (_stateKey z) (snd r)
    = foldl (listen (clock w)) (getCircuitState (_stateKey z) w) (snd settled).
Proof.
  intros Ha. cbv zeta. rewrite invoke_fire. unfold fire. rewrite Ha.
  destruct (settle E (breaker w) (clock w) Rejected) as [b evs]. cbn [fst snd].
  by destruct (emit_all_reads z evs (with_breaker b w)) as (-> & -> & _ & -> & -> & _).
Qed.

(** A call the breaker admits while the record is OPEN and the reset timeout
    has not passed, scenario 1 or 2: [fireRequest] throws it out, and the
    breaker counts a failure. *)
Lemma gated_public_call z c w cs :
  stored z w cs → state cs = OPEN →
  sinceLastFailure (clock w) cs ≤ resetTimeout (_options z) →
  _scenario z = 1 ∨ _scenario z = 2 →
  admits E (breaker w) (clock w) = true →
  let r := invoke z c w in
  let settled := settle E (breaker w) (clock w) Failed in
  fst r = inr (if decide (_scenario z = 1) then CircuitIsOpen else CircuitIsOpenQueued)
  ∧ calls (snd r) = calls w
  ∧ pending (queue (snd r))
    = pending (queue w)
      ++ (if decide (_scenario z = 1) then []
          else [Bull.mkJob (Bull.nextId (queue w)) (fired c)])
  ∧ breaker (snd r) = fst settled
  ∧ getCircuitState (_stateKey z) (snd r) = foldl (listen (clock w)) cs (snd settled).
Proof.
  intros Hst Hs Hwin Hsc Ha. cbv zeta. rewrite invoke_fire. unfold fire. rewrite Ha.
  destruct (TsProofs.gated_call z (fired c) w cs Hst Hs Hwin) as [H1 H2].
  destruct Hsc as [Hsc|Hsc].
  - rewrite (H1 Hsc). cbv beta iota.
    rewrite Z.sub_diag, timesOut_instant.
    destruct (decide (_scenario z = 1)); [|done].
    destruct (settle E (breaker w) (clock w) Failed) as [b evs]. cbn [fst snd].
    destruct (emit_all_reads z evs (with_breaker b w)) as (-> & -> & _ & -> & -> & _).
    split; [done|]. split; [done|]. split; [by rewrite app_nil_r|]. split; [done|].
    f_equal. by apply TsProofs.getCircuitState_stored.
  - rewrite (H2 Hsc). cbv beta iota.
    change (clock (with_queue (Bull.add (fired c) (queue w)) w)) with (clock w).
    rewrite Z.sub_diag, timesOut_instant.
    destruct (decide (_scenario z = 1)); [lia|].
    change (breaker (with_queue (Bull.add (fired c) (queue w)) w)) with (breaker w).
    destruct (settle E (breaker w) (clock w) Failed) as [b evs]. cbn [fst snd].
    destruct (emit_all_reads z evs
                (with_breaker b (with_queue (Bull.add (fired c) (queue w)) w)))
      as (-> & -> & _ & -> & -> & _).
    repeat split.
    + unfold pending. simpl. by rewrite app_assoc.
    + f_equal. by apply TsProofs.getCircuitState_stored.
Qed.

(** The timer goes off during a probe: the probe is at axios all the same,
    and the record was half-opened before. *)
Lemma overrun_probe z c w cs :
  stored z w cs → state cs = OPEN →
  resetTimeout (_options z) < sinceLastFailure (clock w) cs →
  calls (overrun z (fired c) w) = calls w ++ [wire c]
  ∧ ∃ rest, writes (overrun z (fired c) w)
            = writes w ++ (_stateKey z, halfOpened cs) :: rest.
Proof.
  intros Hst Hs Hlate. unfold overrun, gate.
  rewrite (TsProofs.getCircuitState_stored _ _ _ Hst), Hs.
  destruct (Z.ltb_spec (resetTimeout (_options z)) (sinceLastFailure (clock w) cs));
    [|lia].
  rewrite TsProofs.request_fired. fold (halfOpened cs).
  set (w1 := setCircuitState (_stateKey z) (halfOpened cs) w).
  pose proof (TsProofs.send_calls (wire c) w1) as Hc.
  destruct (TsProofs.send_keeps (wire c) w1) as (_ & Hw & _).
  destruct (send (wire c) w1) as [r w2]. cbn [fst snd] in Hc, Hw. cbv zeta.
  destruct (settle E (breaker w2) _ Failed) as [b evs].
  set (lapse := clock w1 + timerDelay (resetTimeout (_options z))).
  destruct (emit_all_reads z evs (at_time lapse (with_breaker b w2)))
    as (_ & Hc3 & _ & _ & _ & [ws Hw3]).
  set (w3 := at_time (clock w2) _).
  assert (calls w3 = calls w ++ [wire c]) as Hcalls.
  { unfold w3. cbn [calls at_time]. rewrite Hc3. cbn [calls at_time with_breaker].
    by rewrite Hc. }
  assert (writes w3 = writes w ++ (_stateKey z, halfOpened cs) :: ws) as Hwrites.
  { unfold w3. cbn [writes at_time]. rewrite Hw3. cbn [writes at_time with_breaker].
    rewrite Hw. unfold w1. cbn [writes setCircuitState].
    by rewrite <- app_assoc. }
  destruct r as [resp|err].
  - destruct (TsProofs.recordSuccess_keeps z (halfOpened cs) w3) as [-> [final ->]].
    split; [done|]. exists (ws ++ [(_stateKey z, final)]).
    rewrite Hwrites. by rewrite <- app_assoc.
  - destruct (TsProofs.recordFailure_keeps z (halfOpened cs) w3)
      as (-> & _ & [final ->]).
    split; [done|]. exists (ws ++ [(_stateKey z, final)]).
    rewrite Hwrites. by rewrite <- app_assoc.
Qed.

(** A call the breaker admits once the reset timeout has passed: the record
    is half-opened and the call is sent to axios. *)
Lemma probe_public_call z c w cs :
  stored z w cs → state cs = OPEN →
  resetTimeout (_options z) < sinceLastFailure (clock w) cs →
  admits E (breaker w) (clock w) = true →
  calls (snd (invoke z c w)) = calls w ++ [wire c]
  ∧ ∃ rest, writes (snd (invoke z c w))
            = writes w ++ (_stateKey z, halfOpened cs) :: rest.
Proof.
  intros Hst Hs Hlate Ha. rewrite invoke_fire. unfold fire. rewrite Ha.
  destruct (TsProofs.probe_call z w cs c Hst Hs Hlate) as [Hc [final Hw]].
  pose proof (overrun_probe z c w cs Hst Hs Hlate) as Hover.
  destruct (fireRequest z (fired c) w) as [r w1]. cbn [fst snd] in Hc, Hw.
  destruct (timesOut _ _); [exact Hover|].
  destruct (settle E (breaker w1) (clock w1) _) as [b evs]. cbn [snd].
  destruct (emit_all_reads z evs (with_breaker b w1)) as (_ & -> & _ & _ & _ & [ws ->]).
  cbn [calls writes with_breaker]. split; [done|].
  exists ((_stateKey z, final) :: ws). rewrite Hw. by rewrite <- app_assoc.
Qed.

(** A failing call on a CLOSED record, admitted by the breaker:
    [recordFailure] counts it; then the listeners of the events the breaker
    emits on that failure rewrite the record.  When the breaker's timer went
    off first, [recordFailure] runs after them and has the last word. *)
Lemma failing_public_call z c w (reason : string) :
  state (getCircuitState (_stateKey z) w) = CLOSED →
  admits E (breaker w) (clock w) = true →
  fst (axios E (calls w) (wire c)) = inr reason →
  let cs := getCircuitState (_stateKey z) w in
  let took := snd (axios E (calls w) (wire c)) in
  let recorded := fst (recordFailure z cs (at_time (clock w + took) w)) in
  let w' := snd (invoke z c w) in
  calls w' = calls w ++ [wire c]
  ∧ getCircuitState (_stateKey z) w'
    = if timesOut (resetTimeout (_options z)) took then recorded
      else foldl (listen (clock w + took)) recorded
             (snd (settle E (breaker w) (clock w + took) Failed)).
Proof.
  intros Hs Ha.
  destruct (axios E (calls w) (wire c)) as [r took] eqn:Hx. cbn [fst snd].
  intros ->. cbv zeta.
  set (cs := getCircuitState (_stateKey z) w) in *.
  set (w2 := mkWorld (redis w) (writes w) (queue w) (calls w ++ [wire c])
               (emitted w) (breaker w) (clock w + took)).
  assert (request (fired c) w = (inr (AxiosError reason), w2)) as Hreq.
  { rewrite TsProofs.request_fired. unfold send. by rewrite Hx. }
  assert (fireRequest z (fired c) w
          = (inr (AxiosError reason), snd (recordFailure z cs w2))) as Hfr.
  { unfold fireRequest, gate. fold cs. by rewrite Hs, Hreq. }
  assert (∀ w3, clock w3 = clock w + took →
            fst (recordFailure z cs w3)
            = fst (recordFailure z cs (at_time (clock w + took) w))) as Hrec.
  { intros w3 Hclk. rewrite !TsProofs.recordFailure_fst. by rewrite Hclk. }
  rewrite invoke_fire. unfold fire. rewrite Ha, Hfr. cbv beta iota.
  rewrite TsProofs.recordFailure_snd.
  change (clock (setCircuitState (_stateKey z) (fst (recordFailure z cs w2)) w2))
    with (clock w + took).
  replace (clock w + took - clock w) with took by lia.
  destruct (timesOut (resetTimeout (_options z)) took).
  - cbn [snd]. unfold overrun, gate. fold cs. rewrite Hs, Hreq. cbv beta iota zeta.
    destruct (settle E (breaker w2) _ Failed) as [b evs].
    set (lapse := clock w + timerDelay (resetTimeout (_options z))).
    destruct (emit_all_reads z evs (at_time lapse (with_breaker b w2)))
      as (_ & Hc3 & _).
    set (w3 := at_time (clock w2) _).
    destruct (TsProofs.recordFailure_keeps z cs w3) as (-> & _).
    split.
    + unfold w3. cbn [calls at_time]. by rewrite Hc3.
    + rewrite TsProofs.recordFailure_snd, TsProofs.getCircuitState_set.
      by apply Hrec.
  - change (breaker (setCircuitState (_stateKey z) (fst (recordFailure z cs w2)) w2))
      with (breaker w).
    destruct (settle E (breaker w) (clock w + took) Failed) as [b evs]. cbn [fst snd].
    destruct (emit_all_reads z evs
                (with_breaker b
                   (setCircuitState (_stateKey z) (fst (recordFailure z cs w2)) w2)))
      as (-> & -> & _).
    split; [done|]. f_equal.
    rewrite <- (Hrec w2) by done.
    apply TsProofs.getCircuitState_stored, TsProofs.stored_set.
Qed.

(** A run of failing calls under a breaker that admits every call and emits
    nothing: the record counts them, and is OPEN from the call that takes
    the count past [failureThreshold]. *)
Lemma quiet_failing_run z c (n : nat) w :
  (∀ b t, admits E b t = true) →
  (∀ b t a, snd (settle E b t a) = []) →
  (∀ history, ∃ reason, fst (axios E history (wire c)) = inr reason) →
  let cs := getCircuitState (_stateKey z) w in
  state cs = CLOSED →
  failureCount cs ≤ failureThreshold (_options z) →
  failureCount cs + Z.of_nat n ≤ failureThreshold (_options z) + 1 →
  let after := getCircuitState (_stateKey z)
                 (Nat.iter n (fun w => snd (invoke z c w)) w) in
  failureCount after = failureCount cs + Z.of_nat n
  ∧ state after
    = if failureThreshold (_options z) <? failureCount cs + Z.of_nat n
      then OPEN else CLOSED.
Proof.
  intros Hadm Hquiet Hfail cs Hs H0. cbv zeta.
  induction n as [|n IH]; intros Hn.
  - simpl. fold cs. rewrite Z.add_0_r.
    destruct (Z.ltb_spec (failureThreshold (_options z)) (failureCount cs)); [lia|done].
  - destruct IH as [IHc IHs]; [lia|].
    rewrite Nat.iter_succ.
    set (wn := Nat.iter n (fun w => snd (invoke z c w)) w) in *.
    destruct (Z.ltb_spec (failureThreshold (_options z))
                (failureCount cs + Z.of_nat n)) as [|Hle]; [lia|].
    destruct (Hfail (calls wn)) as [reason Hr].
    destruct (failing_public_call z c wn reason IHs (Hadm _ _) Hr) as [_ ->].
    rewrite Hquiet. cbn [foldl].
    assert (∀ (b : bool) (x : CircuitState), (if b then x else x) = x) as Hif
      by (by intros []).
    rewrite Hif, TsProofs.recordFailure_fst, IHs, IHc. cbn [failureCount state].
    split; [lia|].
    replace (failureCount cs + Z.of_nat n + 1) with (failureCount cs + Z.of_nat (S n))
      by lia.
    done.
Qed.

(** C3, as the code has it.  A failing call made through a public method
    while the record is CLOSED, and admitted by the breaker, is sent to axios
    and counted by [recordFailure]: [failureCount] goes up by one and the
    record becomes OPEN when the new count exceeds [failureThreshold].  The
    listeners of the events the breaker emits on that failure then rewrite
    the same record, unless the breaker's timer went off first, in which case
    they run before [recordFailure] writes.  So under a breaker that admits
    every call and emits nothing, a run of failing calls leaves the count at
    the number of failures and the record OPEN exactly from the call that
    takes the count to [failureThreshold + 1]; otherwise the record is OPEN
    as soon as the breaker emits 'open'. *)
Theorem failures_open_the_record z c :
  (∀ w (n : nat),
     (∀ b t, admits E b t = true) →
     (∀ b t a, snd (settle E b t a) = []) →
     (∀ history, ∃ reason, fst (axios E history (wire c)) = inr reason) →
     let cs := getCircuitState (_stateKey z) w in
     state cs = CLOSED →
     failureCount cs ≤ failureThreshold (_options z) →
     failureCount cs + Z.of_nat n ≤ failureThreshold (_options z) + 1 →
     let after := getCircuitState (_stateKey z)
                    (Nat.iter n (fun w => snd (invoke z c w)) w) in
     failureCount after = failureCount cs + Z.of_nat n
     ∧ state after
       = if failureThreshold (_options z) <? failureCount cs + Z.of_nat n
         then OPEN else CLOSED)
  ∧ (∀ w (reason : string),
       state (getCircuitState (_stateKey z) w) = CLOSED →
       admits E (breaker w) (clock w) = true →
       fst (axios E (calls w) (wire c)) = inr reason →
       let cs := getCircuitState (_stateKey z) w in
       let took := snd (axios E (calls w) (wire c)) in
       let recorded := fst (recordFailure z cs (at_time (clock w + took) w)) in
       let w' := snd (invoke z c w) in
       calls w' = calls w ++ [wire c]
       ∧ failureCount recorded = failureCount cs + 1
       ∧ state recorded
         = (if failureThreshold (_options z) <? failureCount cs + 1
            then OPEN else CLOSED)
       ∧ getCircuitState (_stateKey z) w'
         = if timesOut (resetTimeout (_options z)) took then recorded
           else foldl (listen (clock w + took)) recorded
                  (snd (settle E (breaker w) (clock w + took) Failed))).
Proof.
  split.
  - intros w n Hadm Hquiet Hfail cs Hs H0 Hn.
    by apply quiet_failing_run.
  - intros w reason Hs Ha Hr cs took recorded w'.
    destruct (failing_public_call z c w reason Hs Ha Hr) as [Hc Hrec].
    split; [exact Hc|].
    assert (recorded
            = mkCircuitState
                (if failureThreshold (_options z) <? failureCount cs + 1
                 then OPEN else CLOSED)
                (failureCount cs + 1) (successCount cs) (Some (clock w + took)))
      as Hval.
    { unfold recorded. rewrite TsProofs.recordFailure_fst. fold cs in Hs.
      by rewrite Hs. }
    split; [by rewrite Hval|]. split; [by rewrite Hval|]. exact Hrec.
Qed.

(** C6, as the code has it.  The record is OPEN.  While at most
    [resetTimeout] milliseconds have passed since its [lastFailureTime], a
    public call in scenario 1 or 2 fails and is not sent to axios, whether
    the breaker rejects it or [fireRequest] throws it out; the listeners of
    the events the breaker emits on that call rewrite the record: it is left
    as it was when the breaker emits nothing, and stamped with the instant of
    the call when the breaker opens.  Once more than [resetTimeout] has
    passed, a call the breaker admits writes HALF_OPEN and is sent to axios;
    a call the breaker rejects is not sent. *)
Theorem open_circuit_waits z c w cs :
  stored z w cs → state cs = OPEN →
  let r := invoke z c w in
  let evs := snd (settle E (breaker w) (clock w)
                    (if admits E (breaker w) (clock w) then Failed else Rejected)) in
  let after := getCircuitState (_stateKey z) (snd r) in
  (sinceLastFailure (clock w) cs ≤ resetTimeout (_options z) →
   _scenario z = 1 ∨ _scenario z = 2 →
     calls (snd r) = calls w
     ∧ (∃ e, fst r = inr e)
     ∧ after = foldl (listen (clock w)) cs evs
     ∧ (evs = [] → after = cs)
     ∧ (∀ evs', evs = evs' ++ [EvOpen] →
          state after = OPEN ∧ lastFailureTime after = Some (clock w)))
  ∧ (resetTimeout (_options z) < sinceLastFailure (clock w) cs →
     admits E (breaker w) (clock w) = true →
       calls (snd r) = calls w ++ [wire c]
       ∧ ∃ rest, writes (snd r) = writes w ++ (_stateKey z, halfOpened cs) :: rest)
  ∧ (admits E (breaker w) (clock w) = false →
       calls (snd r) = calls w ∧ fst r = inr BreakerError).
Proof.
  intros Hst Hs r evs after. split; [|split].
  - intros Hwin Hsc.
    assert (calls (snd r) = calls w ∧ (∃ e, fst r = inr e)
            ∧ after = foldl (listen (clock w)) cs evs) as (Hc & He & Hafter).
    { unfold after, evs, r.
      destruct (admits E (breaker w) (clock w)) eqn:Ha.
      - destruct (gated_public_call z c w cs Hst Hs Hwin Hsc Ha)
          as (Hr & Hc & _ & _ & Hrec).
        split; [exact Hc|]. split; [by eexists|]. exact Hrec.
      - destruct (refused_public_call z c w Ha) as (Hr & Hc & _ & _ & Hrec).
        split; [exact Hc|]. split; [by eexists|].
        rewrite Hrec. f_equal. by apply TsProofs.getCircuitState_stored. }
    split; [exact Hc|]. split; [exact He|]. split; [exact Hafter|].
    split.
    + intros Hnil. by rewrite Hafter, Hnil.
    + intros evs' Hev. by rewrite Hafter, Hev, foldl_snoc.
  - intros Hlate Ha. by apply probe_public_call.
  - intros Ha. by destruct (refused_public_call z c w Ha) as (Hr & Hc & _).
Qed.

(** A replay in this variant: the job's request goes to axios as [request]
    sends it, and neither the record nor the breaker hears of it. *)
Lemma request_sent j w : supported (method j) → request j w = send (sent j) w.
Proof.
  unfold supported, request, sent. intros [Hm|[Hm|[Hm|Hm]]]; rewrite Hm; reflexivity.
Qed.

Lemma worker_sends z w (job : Bull.Job) (rest : list Bull.Job) :
  Bull.promoted (queue w) = job :: rest →
  supported (method (Bull.jobData job)) →
  calls (worker z w) = calls w ++ [sent (Bull.jobData job)].
Proof.
  intros Hp Hm. unfold worker, Bull.take. rewrite Hp.
  by rewrite (request_sent _ _ Hm), TsProofs.send_calls.
Qed.

Lemma worker_idle z w : Bull.promoted (queue w) = [] → worker z w = w.
Proof. intros Hp. unfold worker, Bull.take. by rewrite Hp. Qed.

Lemma replays_sent z (k : nat) w :
  Forall (fun job => supported (method (Bull.jobData job))) (Bull.promoted (queue w)) →
  let w' := Nat.iter k (worker z) w in
  calls w'
  = calls w ++ map (fun job => sent (Bull.jobData job)) (take k (Bull.promoted (queue w)))
  ∧ Bull.promoted (queue w') = drop k (Bull.promoted (queue w))
  ∧ Bull.waiting (queue w') = Bull.waiting (queue w)
  ∧ redis w' = redis w
  ∧ writes w' = writes w
  ∧ breaker w' = breaker w.
Proof.
  cbv zeta. revert w. induction k as [|k IH]; intros w Hall.
  - simpl. by rewrite app_nil_r.
  - rewrite Nat.iter_succ_r.
    destruct (Bull.promoted (queue w)) as [|job rest] eqn:Hp.
    + rewrite (worker_idle z w Hp).
      destruct (IH w) as (-> & -> & -> & -> & -> & ->); [by rewrite Hp|].
      rewrite Hp. by rewrite take_nil, !drop_nil.
    + apply Forall_cons in Hall as [Hm Hrest].
      destruct (TsProofs.worker_not_recorded z w job rest Hp)
        as (Hr & Hw & Hb & _ & Hq).
      pose proof (worker_sends z w job rest Hp Hm) as Hc.
      destruct (IH (worker z w)) as (-> & -> & -> & -> & -> & ->).
      { by rewrite Hq. }
      rewrite Hq, Hc, Hr, Hw, Hb. cbn [Bull.promoted Bull.waiting].
      rewrite firstn_cons, skipn_cons. cbn [map].
      by rewrite <- app_assoc.
Qed.

End Props.

(** *** The properties on concrete runs *)

Lemma failures_open_the_record_witness :
  let z := new_Zyphr (Sample.tsOptions 1) in
  let fail := Get "/fail" None in
  let run (n : nat) :=
    getCircuitState (_stateKey z)
      (Nat.iter n (fun w => snd (invoke z fail w)) (Sample.tsWorld Sample.calm tt)) in
  (state (run 3%nat) = CLOSED ∧ failureCount (run 3%nat) = 3)
  ∧ (state (run 4%nat) = OPEN ∧ failureCount (run 4%nat) = 4).
Proof.
  intros z fail run.
  assert (∀ history : list JobData,
            ∃ reason, fst (axios Sample.calm history (wire fail)) = inr reason) as Hfail.
  { intros history. by exists "ECONNREFUSED". }
  destruct (proj1 (failures_open_the_record (E := Sample.calm) z fail)
              (Sample.tsWorld Sample.calm tt) 3%nat)
    as [Hc3 Hs3]; [done | done | exact Hfail | done | by vm_compute | by vm_compute |].
  destruct (proj1 (failures_open_the_record (E := Sample.calm) z fail)
              (Sample.tsWorld Sample.calm tt) 4%nat)
    as [Hc4 Hs4]; [done | done | exact Hfail | done | by vm_compute | by vm_compute |].
  split; (split; [assumption|assumption]).
Defined.

(** C3 as stated fails on the code.  With [failureThreshold] 3 and a breaker
    that opens on its first failure, one failing call through [get] leaves
    the record OPEN with [failureCount] 1; the next call is rejected by the
    breaker. *)
Lemma breaker_opens_the_record_early :
  let z := new_Zyphr (Sample.tsOptions 1) in
  let w := Sample.tsWorld Sample.tripping Sample.TClosed in
  let w1 := snd (invoke z (Get "/fail" None) w) in
  state (getCircuitState (_stateKey z) w) = CLOSED
  ∧ getCircuitState (_stateKey z) w1 = mkCircuitState OPEN 1 0 (Some 5)
  ∧ failureCount (getCircuitState (_stateKey z) w1) ≤ failureThreshold (_options z)
  ∧ fst (invoke z (Get "/fail" None) (at_time 10 w1)) = inr BreakerError.
Proof. by vm_compute. Qed.

Lemma open_circuit_waits_witness :
  let z := new_Zyphr (Sample.tsOptions 1) in
  let cs := mkCircuitState OPEN 4 0 (Some 1000) in
  (let w := Sample.tsWorldWith Sample.tripping Sample.TClosed 1 cs 1010 in
   let r := invoke z (Get "/a" None) w in
   calls (snd r) = []
   ∧ getCircuitState (_stateKey z) (snd r) = mkCircuitState OPEN 4 0 (Some 1010))
  ∧ (let w := Sample.tsWorldWith Sample.calm tt 1 cs 1101 in
     let r := invoke z (Get "/a" None) w in
     calls (snd r) = [mkJobData "get" "/a" JsUndefined None]
     ∧ ∃ rest, writes (snd r)
               = (_stateKey z, mkCircuitState HALF_OPEN 4 0 (Some 1000)) :: rest).
Proof.
  intros z cs. split.
  - intros w r.
    destruct (open_circuit_waits z (Get "/a" None) w cs) as [Hgated _];
      [by vm_compute | reflexivity |].
    destruct Hgated as (Hc & _ & Hafter & _); [by vm_compute | by left |].
    split; [exact Hc|]. unfold r. rewrite Hafter. by vm_compute.
  - intros w r.
    destruct (open_circuit_waits z (Get "/a" None) w cs) as (_ & Hprobe & _);
      [by vm_compute | reflexivity |].
    destruct Hprobe as [Hc Hw]; [by vm_compute | reflexivity |].
    split; [exact Hc | exact Hw].
Defined.

End TsPublic.

(** * Replays of the gate variant *)

Module GateReplay.
Import ZyphrGate.

Section Props.
Context {E : Env}.
Implicit Types (w : World E) (z : Zyphr) (j : JobData).

(** With nothing waiting, an event leaves the queue as it is. *)
Lemma emit_idle z w (ev : BreakerEvent) :
  Bull.waiting (queue w) = [] → queue (emit z w ev) = queue w.
Proof.
  intros Hw. unfold emit, on_event.
  set (w0 := mkWorld _ _ _ _ _ _ _ _).
  destruct ev.
  - by destruct (GateProofs.redis_set_keeps (mkSet (_stateKey z) "OPEN" (_ttl z)) w0)
      as (_ & -> & _).
  - by destruct (GateProofs.redis_set_keeps (mkSet (_stateKey z) "HALF_OPEN" (_ttl z)) w0)
      as (_ & -> & _).
  - destruct (GateProofs.redis_set_keeps (mkSet (_stateKey z) "CLOSED" (_ttl z)) w0)
      as (_ & Hq & _).
    destruct (redis_set _ w0) as [[|] w1]; cbn [fst snd] in *; [|done].
    unfold processQueue, with_queue, drain, Bull.getWaiting. cbn [queue].
    rewrite Hq. change (queue w0) with (queue w). by rewrite Hw.
Qed.

Lemma emit_all_idle z (evs : list BreakerEvent) w :
  Bull.waiting (queue w) = [] → queue (foldl (emit z) w evs) = queue w.
Proof.
  revert w. induction evs as [|ev evs IH]; intros w Hw; [done|]. simpl.
  rewrite IH; rewrite emit_idle; done.
Qed.

Lemma fire_idle z j w :
  Bull.waiting (queue w) = [] → queue (snd (fire z j w)) = queue w.
Proof.
  intros Hw. unfold fire. destruct (admits E (breaker w) (clock w)).
  - destruct (GateProofs.executor_keeps j w) as (_ & _ & _ & Hq & _).
    destruct (executor j w) as [r w1]. cbn [fst snd] in *.
    destruct (timesOut _ _).
    + destruct (settle E (breaker w1) _ Failed) as [b evs]. cbn [snd].
      rewrite emit_all_idle; simpl; by rewrite Hq.
    + destruct (settle E (breaker w1) (clock w1) _) as [b evs]. cbn [snd].
      rewrite emit_all_idle; simpl; by rewrite Hq.
  - destruct (settle E (breaker w) (clock w) Rejected) as [b evs]. cbn [snd].
    by rewrite emit_all_idle.
Qed.

Lemma worker_rests z w : Bull.promoted (queue w) = [] → worker z w = w.
Proof. intros Hp. unfold worker, Bull.take. by rewrite Hp. Qed.

Lemma worker_step z w (job : Bull.Job) (rest : list Bull.Job) :
  Bull.waiting (queue w) = [] →
  Bull.promoted (queue w) = job :: rest →
  queue (worker z w) = Bull.mkQueue [] rest (Bull.nextId (queue w)).
Proof.
  intros Hw Hp. unfold worker, Bull.take. rewrite Hp.
  rewrite fire_idle; simpl; by rewrite ?Hw.
Qed.

(** Each replay takes the oldest job handed over out of the queue, whatever
    becomes of it; nothing comes back. *)
Lemma replays_leave z (k : nat) w :
  Bull.waiting (queue w) = [] →
  pending (queue (Nat.iter k (worker z) w)) = drop k (Bull.promoted (queue w)).
Proof.
  revert w. induction k as [|k IH]; intros w Hw.
  - unfold pending. simpl. by rewrite Hw, app_nil_r.
  - rewrite Nat.iter_succ_r.
    destruct (Bull.promoted (queue w)) as [|job rest] eqn:Hp.
    + rewrite (worker_rests z w Hp), IH, Hp by done. by rewrite !drop_nil.
    + pose proof (worker_step z w job rest Hw Hp) as Hq.
      rewrite IH by (by rewrite Hq). by rewrite Hq.
Qed.

(** While the breaker admits them, the replays are sent to axios in the
    order of the queue, each once. *)
Lemma replays_fired z (k : nat) w :
  (∀ b t, admits E b t = true) →
  Bull.waiting (queue w) = [] →
  calls (Nat.iter k (worker z) w)
  = calls w ++ map Bull.jobData (take k (Bull.promoted (queue w))).
Proof.
  intros Hadm. revert w. induction k as [|k IH]; intros w Hw.
  - simpl. by rewrite app_nil_r.
  - rewrite Nat.iter_succ_r.
    destruct (Bull.promoted (queue w)) as [|job rest] eqn:Hp.
    + rewrite (worker_rests z w Hp), IH, Hp by done. by rewrite !take_nil.
    + pose proof (worker_step z w job rest Hw Hp) as Hq.
      rewrite IH by (by rewrite Hq). rewrite Hq. cbn [Bull.promoted].
      destruct (GateProofs.worker_discards z w job rest Hp) as [-> _].
      rewrite GateProofs.fire_sends by apply Hadm.
      rewrite firstn_cons. cbn [map calls with_queue]. by rewrite <- app_assoc.
Qed.

End Props.

End GateReplay.

(** * Gated calls and replays in the two variants *)

(** C1, as the code has it.  Gate variant: a public call made while
    [isGloballyOpen] answers true fails with the "globally open" error and
    leaves the world as it was (RETURN_ERROR), or adds one job holding the
    request behind the waiting ones and fails with the "has been queued"
    error (QUEUE_REQUEST); axios is not called and the breaker is not
    consulted.  Stateful variant: the call first meets the breaker.  While
    the record is OPEN and the reset timeout has not passed, in scenario 1 or
    2, it is never sent to axios; when the breaker admits it, it fails with
    'Circuit is open' and nothing is queued (scenario 1), or one job holding
    the request is added behind the others and it fails with the "has been
    queued" error (scenario 2), and the breaker counts a failure; when the
    breaker rejects it, it fails with the breaker's error and nothing is
    queued in either scenario. *)
Theorem gated_calls_fail_without_transport (E : Env) :
  (∀ (z : ZyphrGate.Zyphr) (c : Call) (w : ZyphrGate.World E),
     ZyphrGate.isGloballyOpen z w = inl true →
     let r := ZyphrGate.invoke z c w in
     match ZyphrGate._scenario z with
     | ZyphrGate.RETURN_ERROR => r = (inr ZyphrGate.GloballyOpen, w)
     | ZyphrGate.QUEUE_REQUEST =>
         fst r = inr ZyphrGate.GloballyOpenQueued
         ∧ Bull.waiting (ZyphrGate.queue (snd r))
           = Bull.waiting (ZyphrGate.queue w)
             ++ [Bull.mkJob (Bull.nextId (ZyphrGate.queue w)) (ZyphrGate.handled c)]
         ∧ Bull.promoted (ZyphrGate.queue (snd r)) = Bull.promoted (ZyphrGate.queue w)
     end
     ∧ ZyphrGate.calls (snd r) = ZyphrGate.calls w
     ∧ ZyphrGate.breaker (snd r) = ZyphrGate.breaker w
     ∧ ZyphrGate.emitted (snd r) = ZyphrGate.emitted w
     ∧ ZyphrGate.issued (snd r) = ZyphrGate.issued w)
  ∧ (∀ (z : ZyphrTs.Zyphr) (c : Call) (w : ZyphrTs.World E) (cs : ZyphrTs.CircuitState),
       ZyphrTs.stored z w cs → ZyphrTs.state cs = ZyphrTs.OPEN →
       ZyphrTs.sinceLastFailure (ZyphrTs.clock w) cs
         ≤ ZyphrTs.resetTimeout (ZyphrTs._options z) →
       ZyphrTs._scenario z = 1 ∨ ZyphrTs._scenario z = 2 →
       let r := ZyphrTs.invoke z c w in
       let admitted := admits E (ZyphrTs.breaker w) (ZyphrTs.clock w) in
       ZyphrTs.calls (snd r) = ZyphrTs.calls w
       ∧ (admitted = true →
            (ZyphrTs._scenario z = 1 →
               fst r = inr ZyphrTs.CircuitIsOpen
               ∧ pending (ZyphrTs.queue (snd r)) = pending (ZyphrTs.queue w))
            ∧ (ZyphrTs._scenario z = 2 →
                 fst r = inr ZyphrTs.CircuitIsOpenQueued
                 ∧ pending (ZyphrTs.queue (snd r))
                   = pending (ZyphrTs.queue w)
                     ++ [Bull.mkJob (Bull.nextId (ZyphrTs.queue w)) (ZyphrTs.fired c)])
            ∧ ZyphrTs.breaker (snd r)
              = fst (settle E (ZyphrTs.breaker w) (ZyphrTs.clock w) Failed))
       ∧ (admitted = false →
            fst r = inr ZyphrTs.BreakerError
            ∧ pending (ZyphrTs.queue (snd r)) = pending (ZyphrTs.queue w)
            ∧ ZyphrTs.breaker (snd r)
              = fst (settle E (ZyphrTs.breaker w) (ZyphrTs.clock w) Rejected))).
Proof.
  split.
  - intros z c w Hopen. by apply GateProofs.globally_open_call.
  - intros z c w cs Hst Hs Hwin Hsc r admitted. unfold r, admitted.
    split; [|split].
    + destruct (admits E (ZyphrTs.breaker w) (ZyphrTs.clock w)) eqn:Ha.
      * by destruct (TsPublic.gated_public_call z c w cs Hst Hs Hwin Hsc Ha)
          as (_ & Hc & _).
      * by destruct (TsPublic.refused_public_call z c w Ha) as (_ & Hc & _).
    + intros Ha.
      destruct (TsPublic.gated_public_call z c w cs Hst Hs Hwin Hsc Ha)
        as (Hr & _ & Hp & Hb & _).
      split; [|split; [|exact Hb]]; intros H; rewrite Hr, Hp.
      * rewrite !decide_True by done. by rewrite app_nil_r.
      * by rewrite !decide_False by lia.
    + intros Ha.
      by destruct (TsPublic.refused_public_call z c w Ha) as (Hr & _ & Hp & Hb & _).
Qed.

(** C8, as the code has it.  Gate variant: when the store accepts the CLOSED
    broadcast, every job owed a replay is handed to the worker, in order, and
    nothing is left waiting; the k-th run of the worker takes the k-th job
    out of the queue, whatever becomes of it, and nothing is queued again.  A
    replay is a [fire] on the breaker, with no look at the gate: when the
    breaker admits it, the job's request is sent to axios once and the
    breaker settles its outcome, or a failure when its timer goes off first;
    when the breaker rejects it, nothing is sent.  So under a breaker that
    admits every call the requests sent are those of the jobs, each once and
    in order.  Stateful variant: the 'close' listener hands over every job
    owed a replay, and the worker sends each to axios once, in order, as
    [request] sends it; the record, the writes and the breaker are as the
    'close' listener left them. *)
Theorem replays_after_close (E : Env) :
  (∀ (z : ZyphrGate.Zyphr) (w : ZyphrGate.World E),
     ZyphrGate.redisFault w = None → 0 < ZyphrGate._ttl z →
     let closed := ZyphrGate.emit z w EvClose in
     let jobs := pending (ZyphrGate.queue w) in
     Bull.waiting (ZyphrGate.queue closed) = []
     ∧ Bull.promoted (ZyphrGate.queue closed) = jobs
     ∧ (∀ k : nat,
          pending (ZyphrGate.queue (Nat.iter k (ZyphrGate.worker z) closed))
          = drop k jobs)
     ∧ ((∀ b t, admits E b t = true) →
        ∀ k : nat,
          ZyphrGate.calls (Nat.iter k (ZyphrGate.worker z) closed)
          = ZyphrGate.calls w ++ map Bull.jobData (take k jobs)))
  ∧ (∀ (z : ZyphrGate.Zyphr) (w : ZyphrGate.World E) (job : Bull.Job)
       (rest : list Bull.Job),
       Bull.promoted (ZyphrGate.queue w) = job :: rest →
       let replayed := ZyphrGate.worker z w in
       let r := fst (axios E (ZyphrGate.calls w) (Bull.jobData job)) in
       let took := snd (axios E (ZyphrGate.calls w) (Bull.jobData job)) in
       pending (ZyphrGate.queue replayed) = rest ++ Bull.waiting (ZyphrGate.queue w)
       ∧ (admits E (ZyphrGate.breaker w) (ZyphrGate.clock w) = true →
            ZyphrGate.calls replayed = ZyphrGate.calls w ++ [Bull.jobData job]
            ∧ ZyphrGate.breaker replayed
              = fst (if timesOut (ZyphrGate._breakerTimeout z) took
                     then settle E (ZyphrGate.breaker w)
                            (ZyphrGate.clock w
                             + timerDelay (ZyphrGate._breakerTimeout z)) Failed
                     else settle E (ZyphrGate.breaker w) (ZyphrGate.clock w + took)
                            (attemptOf r)))
       ∧ (admits E (ZyphrGate.breaker w) (ZyphrGate.clock w) = false →
            ZyphrGate.calls replayed = ZyphrGate.calls w))
  ∧ (∀ (z : ZyphrTs.Zyphr) (w : ZyphrTs.World E),
       let closed := ZyphrTs.emit z w EvClose in
       let jobs := pending (ZyphrTs.queue w) in
       Forall (fun job => supported (method (Bull.jobData job))) jobs →
       Bull.waiting (ZyphrTs.queue closed) = []
       ∧ Bull.promoted (ZyphrTs.queue closed) = jobs
       ∧ ∀ k : nat,
           let replayed := Nat.iter k (ZyphrTs.worker z) closed in
           ZyphrTs.calls replayed
           = ZyphrTs.calls w
             ++ map (fun job => ZyphrTs.sent (Bull.jobData job)) (take k jobs)
           ∧ pending (ZyphrTs.queue replayed) = drop k jobs
           ∧ ZyphrTs.redis replayed !! ZyphrTs._stateKey z
             = ZyphrTs.redis closed !! ZyphrTs._stateKey z
           ∧ ZyphrTs.writes replayed = ZyphrTs.writes closed
           ∧ ZyphrTs.breaker replayed = ZyphrTs.breaker w).
Proof.
  split; [|split].
  - intros z w Hf Httl closed jobs.
    destruct (GateProofs.close_drains z w Hf Httl) as [Hw Hp].
    fold closed in Hw, Hp.
    split; [exact Hw|]. split; [exact Hp|]. split.
    + intros k. rewrite (GateReplay.replays_leave z k closed Hw). by rewrite Hp.
    + intros Hadm k. rewrite (GateReplay.replays_fired z k closed Hadm Hw), Hp.
      destruct (GateProofs.emit_keeps z w EvClose) as (_ & _ & Hc & _).
      fold closed in Hc. by rewrite Hc.
  - intros z w job rest Hp replayed r took.
    destruct (GateProofs.worker_discards z w job rest Hp) as [Hfire Hpend].
    split; [exact Hpend|].
    set (w0 := ZyphrGate.with_queue _ w) in Hfire.
    split.
    + intros Ha. unfold replayed. rewrite Hfire. split.
      * by rewrite (GateProofs.fire_sends z (Bull.jobData job) w0 Ha).
      * pose proof (GateProofs.fire_settles z (Bull.jobData job) w0 Ha) as Hs.
        cbv zeta in Hs. unfold took, r.
        change (ZyphrGate.calls w0) with (ZyphrGate.calls w) in Hs.
        change (ZyphrGate.breaker w0) with (ZyphrGate.breaker w) in Hs.
        change (ZyphrGate.clock w0) with (ZyphrGate.clock w) in Hs.
        destruct (timesOut _ _); by destruct Hs.
    + intros Ha. unfold replayed. rewrite Hfire.
      by destruct (GateProofs.fire_rejected z (Bull.jobData job) w0 Ha).
  - intros z w closed jobs Hall.
    destruct (TsProofs.close_event_drains z w) as [Hw Hp]. fold closed in Hw, Hp.
    split; [exact Hw|]. split; [exact Hp|].
    intros k replayed.
    destruct (TsPublic.replays_sent z k closed) as (Hc & Hpr & Hwa & Hr & Hwr & Hb).
    { by rewrite Hp. }
    fold replayed in Hc, Hpr, Hwa, Hr, Hwr, Hb.
    destruct (TsPublic.emit_reads z w EvClose) as (_ & Hcc & _ & Hbc & _).
    fold closed in Hcc, Hbc.
    rewrite Hc, Hr, Hwr, Hb, Hcc, Hbc, Hp. unfold pending. rewrite Hpr, Hwa, Hw, Hp.
    by rewrite app_nil_r.
Qed.

(** C1 as stated fails on the stateful variant.  The record is OPEN and the
    reset timeout has not passed; the breaker opens on its first failure.  In
    queue-and-retry mode the first call is queued and fails with the "has
    been queued" error; the second is rejected by the breaker, which the
    first has opened: it fails with the breaker's error and is not queued.
    In fail-fast mode the second call fails with the breaker's error too,
    not with 'Circuit is open'. *)
Lemma breaker_rejection_is_not_queued :
  let cs := ZyphrTs.mkCircuitState ZyphrTs.OPEN 4 0 (Some 1000) in
  let order (n : string) := Post "/orders" (JsData n) None in
  (let z := ZyphrTs.new_Zyphr (Sample.tsOptions 2) in
   let w := Sample.tsWorldWith Sample.tripping Sample.TClosed 2 cs 1010 in
   let first := ZyphrTs.invoke z (order "{id:1}") w in
   let second := ZyphrTs.invoke z (order "{id:2}") (ZyphrTs.at_time 1020 (snd first)) in
   fst first = inr ZyphrTs.CircuitIsOpenQueued
   ∧ fst second = inr ZyphrTs.BreakerError
   ∧ pending (ZyphrTs.queue (snd second))
     = [Bull.mkJob 1 (mkJobData "post" "/orders" (JsData "{id:1}") None)]
   ∧ ZyphrTs.calls (snd second) = [])
  ∧ (let z := ZyphrTs.new_Zyphr (Sample.tsOptions 1) in
     let w := Sample.tsWorldWith Sample.tripping Sample.TClosed 1 cs 1010 in
     let first := ZyphrTs.invoke z (order "{id:1}") w in
     let second := ZyphrTs.invoke z (order "{id:2}") (ZyphrTs.at_time 1020 (snd first)) in
     fst first = inr ZyphrTs.CircuitIsOpen
     ∧ fst second = inr ZyphrTs.BreakerError
     ∧ fst second ≠ inr ZyphrTs.CircuitIsOpen).
Proof. by vm_compute. Qed.

Lemma gated_calls_fail_without_transport_witness :
  let order := Post "/orders" (JsData "{id:1}") None in
  let job := mkJobData "post" "/orders" (JsData "{id:1}") None in
  (let w := Sample.gateWorld Sample.tripping Sample.TClosed None
              (Redis.set ∅ "zyphr:global:circuit" "OPEN" (Some 30) 0)
              Bull.empty 500 in
   ZyphrGate.invoke (ZyphrGate.new_Zyphr (Sample.gateOptions ZyphrGate.RETURN_ERROR))
     order w = (inr ZyphrGate.GloballyOpen, w)
   ∧ (let r := ZyphrGate.invoke
                 (ZyphrGate.new_Zyphr (Sample.gateOptions ZyphrGate.QUEUE_REQUEST))
                 order w in
      fst r = inr ZyphrGate.GloballyOpenQueued
      ∧ Bull.waiting (ZyphrGate.queue (snd r)) = [Bull.mkJob 1 job]
      ∧ ZyphrGate.calls (snd r) = []))
  ∧ (let cs := ZyphrTs.mkCircuitState ZyphrTs.OPEN 4 0 (Some 1000) in
     let z := ZyphrTs.new_Zyphr (Sample.tsOptions 2) in
     let w := Sample.tsWorldWith Sample.tripping Sample.TClosed 2 cs 1010 in
     let r := ZyphrTs.invoke z order w in
     fst r = inr ZyphrTs.CircuitIsOpenQueued
     ∧ pending (ZyphrTs.queue (snd r)) = [Bull.mkJob 1 job]
     ∧ ZyphrTs.calls (snd r) = []
     ∧ ZyphrTs.breaker (snd r) = Sample.TOpen).
Proof.
  intros order job. split.
  - intros w. split.
    + destruct (proj1 (gated_calls_fail_without_transport Sample.tripping)
                  (ZyphrGate.new_Zyphr (Sample.gateOptions ZyphrGate.RETURN_ERROR))
                  order w) as [Hr _]; [by vm_compute|]. exact Hr.
    + destruct (proj1 (gated_calls_fail_without_transport Sample.tripping)
                  (ZyphrGate.new_Zyphr (Sample.gateOptions ZyphrGate.QUEUE_REQUEST))
                  order w) as [(Hr & Hw & _) (Hc & _)]; [by vm_compute|].
      split; [exact Hr|]. split; [exact Hw | exact Hc].
  - intros cs z w r.
    destruct (proj2 (gated_calls_fail_without_transport Sample.tripping) z order w cs)
      as (Hc & Hadm & _);
      [by vm_compute | reflexivity | by vm_compute | by right |].
    destruct Hadm as (_ & Hq & Hb); [reflexivity|].
    destruct Hq as [Hr Hp]; [reflexivity|].
    split; [exact Hr|]. split; [exact Hp|]. split; [exact Hc | exact Hb].
Defined.

Lemma replays_after_close_witness :
  let first := mkJobData "post" "/orders" (JsData "{id:1}") None in
  let second := mkJobData "delete" "/orders/7" JsNull None in
  let waiting := Bull.add second (Bull.add first Bull.empty) in
  (let z := ZyphrGate.new_Zyphr (Sample.gateOptions ZyphrGate.QUEUE_REQUEST) in
   let w := Sample.gateWorld Sample.calm tt None ∅ waiting 0 in
   let closed := ZyphrGate.emit z w EvClose in
   ZyphrGate.calls (Nat.iter 1 (ZyphrGate.worker z) closed) = [first]
   ∧ ZyphrGate.calls (Nat.iter 2 (ZyphrGate.worker z) closed) = [first; second]
   ∧ pending (ZyphrGate.queue (Nat.iter 2 (ZyphrGate.worker z) closed)) = []
   ∧ ZyphrGate.calls (Nat.iter 3 (ZyphrGate.worker z) closed) = [first; second])
  ∧ (let z := ZyphrTs.new_Zyphr (Sample.tsOptions 2) in
     let w := ZyphrTs.with_queue waiting (Sample.tsWorld Sample.tripping Sample.TClosed) in
     let closed := ZyphrTs.emit z w EvClose in
     ZyphrTs.calls (Nat.iter 2 (ZyphrTs.worker z) closed)
     = [first; mkJobData "delete" "/orders/7" JsUndefined None]
     ∧ pending (ZyphrTs.queue (Nat.iter 2 (ZyphrTs.worker z) closed)) = []
     ∧ ZyphrTs.breaker (Nat.iter 2 (ZyphrTs.worker z) closed) = Sample.TClosed).
Proof.
  intros first second waiting. split.
  - intros z w closed.
    destruct (proj1 (replays_after_close Sample.calm) z w)
      as (_ & _ & Hleave & Hsent); [reflexivity | by vm_compute |].
    specialize (Hsent (fun _ _ => eq_refl)).
    split; [exact (Hsent 1%nat)|]. split; [exact (Hsent 2%nat)|].
    split; [exact (Hleave 2%nat) | exact (Hsent 3%nat)].
  - intros z w closed.
    destruct (proj2 (proj2 (replays_after_close Sample.tripping)) z w)
      as (_ & _ & Hrun).
    { repeat constructor; unfold supported; simpl; tauto. }
    destruct (Hrun 2%nat) as (Hc & Hp & _ & _ & Hb).
    split; [exact Hc|]. split; [exact Hp | exact Hb].
Defined.

(** * One record, several instances *)

Module TsFleet.
Import ZyphrTs.

Section Props.
Context {E : Env}.
Implicit Types (w : World E) (z : Zyphr) (cs : CircuitState) (c : Call).

(** X8. The record is shared between instances.  Once a failure recorded by
    one instance has left the record OPEN, a call made through another
    instance that uses the same state key, in scenario 1, no later than that
    instance's own reset timeout after the failure, and admitted by that
    instance's breaker, fails with 'Circuit is open' without reaching axios;
    nothing is queued, the breaker of that instance counts a failure, and the
    record is rewritten only by the listeners of the events that breaker
    emits. *)
Theorem opening_gates_the_fleet z1 z2 cs w c (b2 : BState E) (t : Z) :
  _stateKey z2 = _stateKey z1 →
  _scenario z2 = 1 →
  state (fst (recordFailure z1 cs w)) = OPEN →
  t - clock w ≤ resetTimeout (_options z2) →
  admits E b2 t = true →
  let opened := fst (recordFailure z1 cs w) in
  let w1 := at_time t (with_breaker b2 (snd (recordFailure z1 cs w))) in
  let r := invoke z2 c w1 in
  fst r = inr CircuitIsOpen
  ∧ calls (snd r) = calls w
  ∧ pending (queue (snd r)) = pending (queue w)
  ∧ breaker (snd r) = fst (settle E b2 t Failed)
  ∧ getCircuitState (_stateKey z1) (snd r)
    = foldl (listen t) opened (snd (settle E b2 t Failed)).
Proof.
  intros Hkey Hsc Hopen Hwin Ha opened w1 r.
  assert (stored z2 w1 opened) as Hst.
  { unfold stored. rewrite Hkey. unfold w1, opened.
    rewrite TsProofs.recordFailure_snd. apply TsProofs.stored_set. }
  assert (sinceLastFailure (clock w1) opened = t - clock w) as Hsince.
  { unfold opened. by rewrite TsProofs.recordFailure_fst. }
  destruct (TsPublic.gated_public_call z2 c w1 opened Hst Hopen) as (Hr & Hc & Hp & Hb & Hrec).
  - by rewrite Hsince.
  - by left.
  - exact Ha.
  - fold r in Hr, Hc, Hp, Hb, Hrec.
    rewrite decide_True in Hr by done.
    destruct (decide (_scenario z2 = 1)); [|done].
    rewrite app_nil_r in Hp. rewrite <- Hkey.
    split; [exact Hr|]. split; [exact Hc|]. split; [exact Hp|].
    split; [exact Hb | exact Hrec].
Qed.

(** X9. The breaker's 'open' event shuts the circuit by itself.  After its
    listener has run the record is OPEN and stamped with the instant of the
    event, with both counters as they were, however few failures were
    counted; in scenario 1 or 2 a public call made no later than the reset
    timeout after the event is not sent to axios: it fails with the circuit's
    error when the breaker admits it (and is queued in scenario 2), and with
    the breaker's error, unqueued, when the breaker rejects it. *)
Theorem open_event_shuts_the_circuit z w c (t : Z) :
  _scenario z = 1 ∨ _scenario z = 2 →
  t - clock w ≤ resetTimeout (_options z) →
  let cs := getCircuitState (_stateKey z) w in
  let w1 := at_time t (emit z w EvOpen) in
  let r := invoke z c w1 in
  getCircuitState (_stateKey z) w1
  = mkCircuitState OPEN (failureCount cs) (successCount cs) (Some (clock w))
  ∧ calls (snd r) = calls w
  ∧ (admits E (breaker w) t = true →
       fst r = inr (if decide (_scenario z = 1) then CircuitIsOpen
                    else CircuitIsOpenQueued)
       ∧ pending (queue (snd r))
         = pending (queue w)
           ++ (if decide (_scenario z = 1) then []
               else [Bull.mkJob (Bull.nextId (queue w)) (fired c)]))
  ∧ (admits E (breaker w) t = false →
       fst r = inr BreakerError
       ∧ pending (queue (snd r)) = pending (queue w)).
Proof.
  intros Hsc Hwin cs w1 r.
  set (opened := mkCircuitState OPEN (failureCount cs) (successCount cs)
                   (Some (clock w))).
  assert (stored z w1 opened) as Hst.
  { unfold w1, emit, on_event. apply TsProofs.stored_at_time, TsProofs.stored_set. }
  assert (calls w1 = calls w ∧ queue w1 = queue w ∧ breaker w1 = breaker w)
    as (Hc1 & Hq1 & Hb1) by done.
  split; [by apply TsProofs.getCircuitState_stored|].
  destruct (admits E (breaker w) t) eqn:Ha.
  - destruct (TsPublic.gated_public_call z c w1 opened Hst eq_refl)
      as (Hr & Hc & Hp & _); [done | done | by rewrite Hb1 | ].
    fold r in Hr, Hc, Hp. rewrite Hc1 in Hc. rewrite Hq1 in Hp.
    split; [exact Hc|]. split; [by intros _|]. done.
  - destruct (TsPublic.refused_public_call z c w1) as (Hr & Hc & Hp & _);
      [by rewrite Hb1|].
    fold r in Hr, Hc, Hp. rewrite Hc1 in Hc. rewrite Hq1 in Hp.
    split; [exact Hc|]. split; [done|]. by intros _.
Qed.

End Props.

Lemma opening_gates_the_fleet_witness :
  let z1 := new_Zyphr (Sample.tsOptions 2) in
  let z2 := new_Zyphr (mkOptions 5 2 300 1 None) in
  let cs := mkCircuitState CLOSED 3 0 (Some 900) in
  let w := Sample.tsWorldWith Sample.tripping Sample.TOpen 2 cs 1000 in
  let w1 := at_time 1300 (with_breaker (E := Sample.tripping) Sample.TClosed (snd (recordFailure z1 cs w))) in
  fst (invoke z2 (Get "/a" None) w1) = inr CircuitIsOpen
  ∧ calls (snd (invoke z2 (Get "/a" None) w1)) = []
  ∧ breaker (snd (invoke z2 (Get "/a" None) w1)) = Sample.TOpen
  ∧ getCircuitState (_stateKey z1) (snd (invoke z2 (Get "/a" None) w1))
    = mkCircuitState OPEN 4 0 (Some 1300).
Proof.
  intros z1 z2 cs w w1.
  destruct (opening_gates_the_fleet (E := Sample.tripping) z1 z2 cs w (Get "/a" None)
              Sample.TClosed 1300)
    as (Hr & Hc & _ & Hb & Hrec);
    [reflexivity | reflexivity | reflexivity | by vm_compute | reflexivity |].
  split; [exact Hr|]. split; [exact Hc|]. split; [exact Hb|].
  unfold w1. rewrite Hrec. by vm_compute.
Defined.

Lemma open_event_shuts_the_circuit_witness :
  let z := new_Zyphr (Sample.tsOptions 2) in
  let w := Sample.tsWorldWith Sample.tripping Sample.TOpen 2
             (mkCircuitState CLOSED 1 0 (Some 900)) 1000 in
  let order := Post "/orders" (JsData "{id:1}") None in
  (let w1 := at_time 1100 (emit z w EvOpen) in
   getCircuitState (_stateKey z) w1 = mkCircuitState OPEN 1 0 (Some 1000)
   ∧ fst (invoke z order w1) = inr BreakerError
   ∧ pending (queue (snd (invoke z order w1))) = []
   ∧ calls (snd (invoke z order w1)) = [])
  ∧ (let w1 := at_time 1100 (emit z (with_breaker (E := Sample.tripping) Sample.THalfOpen w) EvOpen) in
     fst (invoke z order w1) = inr CircuitIsOpenQueued
     ∧ pending (queue (snd (invoke z order w1)))
       = [Bull.mkJob 1 (mkJobData "post" "/orders" (JsData "{id:1}") None)]).
Proof.
  intros z w order. split.
  - intros w1.
    destruct (open_event_shuts_the_circuit z w order 1100)
      as (Hrec & Hc & _ & Hrej); [by right | by vm_compute |].
    destruct Hrej as [Hr Hp]; [reflexivity|].
    split; [exact Hrec|]. split; [exact Hr|]. split; [exact Hp | exact Hc].
  - intros w1.
    destruct (open_event_shuts_the_circuit z (with_breaker (E := Sample.tripping) Sample.THalfOpen w)
                order 1100)
      as (_ & _ & Hadm & _); [by right | by vm_compute |].
    destruct Hadm as [Hr Hp]; [reflexivity|].
    split; [exact Hr | exact Hp].
Defined.

End TsFleet.
